(** * go-oas-docs: the OAS document builder ([build.go])

    A shallow embedding of the transformation from the in-memory API
    description ([OAS]) to the generic key/value tree handed to the YAML
    encoder, of the emission driver [BuildDocs], and of the allocation
    behaviour of the transform.

    Go maps are finite maps ([gmap]); a [range] loop over a slice is a left
    fold over the list of its elements; [map\[k\] = v] is [<[k:=v]>]. *)

From Stdlib Require Import NArith Ascii String List.
From Stdlib.Strings Require Import Byte.
From stdpp Require Import ssreflect base option list gmap strings fin_maps.

Set Warnings "-register-all,-rewrite-rw,-clear-no-such-hyp".
Local Open Scope string_scope.
Local Open Scope list_scope.

(** ** Strings

    A Go string is a sequence of bytes, here [string] (a list of [ascii]). *)

Definition isUpperByte (c : ascii) : bool :=
  ((65 <=? N_of_ascii c) && (N_of_ascii c <=? 90))%N.

(** ['A' <= c && c <= 'Z'] then [c += 'a' - 'A']. *)
Definition lowerByte (c : ascii) : ascii :=
  if isUpperByte c then ascii_of_N (N_of_ascii c + 32) else c.

Fixpoint lowerASCII (s : string) : string :=
  match s with
  | EmptyString => EmptyString
  | String c r => String (lowerByte c) (lowerASCII r)
  end.

(** Every byte is below [utf8.RuneSelf] (0x80). *)
Fixpoint isASCII (s : string) : bool :=
  match s with
  | EmptyString => true
  | String c r => (N_of_ascii c <? 128)%N && isASCII r
  end.

Fixpoint hasUpper (s : string) : bool :=
  match s with
  | EmptyString => false
  | String c r => isUpperByte c || hasUpper r
  end.

(** ** Declarations that live outside [build.go]

    [build.go] copies the document metadata, the schema properties and the
    XML entry into the output without looking inside them, so their types
    are parameters; of [XMLEntry] it reads the [Name] field only.
    [strings.ToLower] is the Go standard library's: on a string of ASCII
    bytes it lowers the bytes ['A'..'Z'] and on any other string it maps the
    runes through the Unicode tables, which are not modelled. *)
Class Decls := {
  OASVersion : Type;
  Info : Type;
  ExternalDocs : Type;
  Servers : Type;
  Tags : Type;
  SchemaProperties : Type;
  XMLEntry : Type;
  XMLEntry_Name : XMLEntry → string;
  ToLower : string → string;
  ToLower_ascii : ∀ s, isASCII s = true → ToLower s = lowerASCII s
}.

(** The instance used to evaluate the builders on concrete inputs: metadata
    and properties are strings, an XML entry is its name. *)
Definition plainDecls : Decls := {|
  OASVersion := string;
  Info := string;
  ExternalDocs := string;
  Servers := list string;
  Tags := list string;
  SchemaProperties := string;
  XMLEntry := string;
  XMLEntry_Name := λ x, x;
  ToLower := lowerASCII;
  ToLower_ascii := λ s _, eq_refl
|}.

Section Model.
Context {D : Decls}.

(** ** The input object graph

    The struct declarations are not part of [build.go]. Each record lists
    the fields [build.go] reads, with the types its map keys, comparisons
    and calls force: a map key of a [map\[string\]] is a [string], the key of
    [map\[uint\]] is a [uint] (here [N]; no arithmetic is done on it), the
    value of a [map\[string\]\[\]string] is a [\[\]string]. The remaining text
    fields are strings as the spec describes them. *)

(** Modelled from the spec: the struct of a content entry, "a media-type
    name paired with a reference string". *)
Record ContentType := {
  ContentType_Name : string;
  ContentType_Schema : string
}.

(** Modelled from the spec: the struct of a request body, a description
    and its content by media type. *)
Record RequestBody := {
  RequestBody_Description : string;
  RequestBody_Content : list ContentType
}.

(** Modelled from the spec: the struct of a response, the shape of a
    request body with a numeric status code. *)
Record Response := {
  Response_Code : N;
  Response_Description : string;
  Response_Content : list ContentType
}.

(** Modelled from the spec: the struct of a security requirement, "a named
    authentication scheme plus a list of required permission scopes". *)
Record SecurityEntity := {
  SecurityEntity_AuthName : string;
  SecurityEntity_PermTypes : list string
}.

(** Modelled from the spec: the struct of a route, "path string, one HTTP
    method, tag list, summary, operation identifier, a security-requirement
    list, a request-body descriptor, a response-list". *)
Record Path := {
  Path_Route : string;
  Path_HTTPMethod : string;
  Path_Tags : list string;
  Path_Summary : string;
  Path_OperationID : string;
  Path_Security : list SecurityEntity;
  Path_RequestBody : RequestBody;
  Path_Responses : list Response
}.

(** Modelled from the spec: the struct of a component schema, "a type, a
    property mapping, an optional reference, and optional XML-serialization
    metadata". *)
Record Schema := {
  Schema_Name : string;
  Schema_Type : string;
  Schema_Properties : SchemaProperties;
  Schema_Ref : string;
  Schema_XML : XMLEntry
}.

(** Modelled from the spec: the struct of a security scheme, a name, a
    type and a location. *)
Record SecurityScheme := {
  SecurityScheme_Name : string;
  SecurityScheme_Type : string;
  SecurityScheme_In : string
}.

(** Modelled from the spec: the struct of a Components entry, "one schema
    collection and one security-scheme collection". *)
Record Component := {
  Component_Schemas : list Schema;
  Component_SecuritySchemes : list SecurityScheme
}.

(** Modelled from the spec: the struct [OAS], the metadata that
    [transformToHybridOAS] copies, the routes and the components. *)
Record OAS := {
  OAS_OASVersion : OASVersion;
  OAS_Info : Info;
  OAS_ExternalDocs : ExternalDocs;
  OAS_Servers : Servers;
  OAS_Tags : Tags;
  OAS_Paths : list Path;
  OAS_Components : list Component
}.

(** ** The output tree

    What an [interface{}] slot of the output holds. *)

Abbreviation pathSecurityMap := (gmap string (list string)).

Inductive value :=
  | VString (s : string)
  | VStrings (l : list string)
  | VProperties (p : SchemaProperties)
  | VXML (x : XMLEntry)
  | VSecurity (l : list pathSecurityMap)
  | VSchemaRef (m : gmap string (gmap string string))
  | VMap (m : gmap string value)
  | VCodeMap (m : gmap N value).

Abbreviation methodsMap := (gmap string value).
Abbreviation pathsMap := (gmap string (gmap string value)).
Abbreviation componentsMap := (gmap string value).

Definition keyTags := "tags".
Definition keySummary := "summary".
Definition keyOperationID := "operationId".
Definition keySecurity := "security".
Definition keyRequestBody := "requestBody".
Definition keyResponses := "responses".
Definition keyDescription := "description".
Definition keyContent := "content".
Definition keyRef := "$ref".
Definition keySchemas := "schemas".
Definition keySecuritySchemes := "securitySchemes".
Definition keyName := "name".
Definition keyType := "type".
Definition keyProperties := "properties".
Definition keyIn := "in".
Definition keyXML := "xml".

(** ** Builders *)

Definition contentSchemaEntry (ct : ContentType) : value :=
  let refMap : gmap string string := <[keyRef := ContentType_Schema ct]> ∅ in
  VSchemaRef (<["schema" := refMap]> ∅).

Definition makeContentSchemaMap (content : list ContentType) : gmap string value :=
  fold_left (λ contentSchemaMap ct,
               <[ContentType_Name ct := contentSchemaEntry ct]> contentSchemaMap)
            content ∅.

Definition makeSecurityMap (se : list SecurityEntity) : list pathSecurityMap :=
  fold_left (λ securityMaps sec,
               let securityMap : pathSecurityMap :=
                 <[SecurityEntity_AuthName sec := SecurityEntity_PermTypes sec]> ∅ in
               securityMaps ++ [securityMap])
            se [].

Definition codeBodyMap (resp : Response) : gmap string value :=
  <[keyContent := VMap (makeContentSchemaMap (Response_Content resp))]>
    (<[keyDescription := VString (Response_Description resp)]> ∅).

Definition makeResponsesMap (responses : list Response) : gmap N value :=
  fold_left (λ responsesMap resp,
               <[Response_Code resp := VMap (codeBodyMap resp)]> responsesMap)
            responses ∅.

Definition makeRequestBodyMap (reqBody : RequestBody) : gmap string value :=
  <[keyContent := VMap (makeContentSchemaMap (RequestBody_Content reqBody))]>
    (<[keyDescription := VString (RequestBody_Description reqBody)]> ∅).

(** The per-method map built in the body of the loop of [makeAllPathsMap]. *)
Definition pathMap (path : Path) : gmap string value :=
  <[keyResponses := VCodeMap (makeResponsesMap (Path_Responses path))]>
  (<[keyRequestBody := VMap (makeRequestBodyMap (Path_RequestBody path))]>
  (<[keySecurity := VSecurity (makeSecurityMap (Path_Security path))]>
  (<[keyOperationID := VString (Path_OperationID path)]>
  (<[keySummary := VString (Path_Summary path)]>
  (<[keyTags := VStrings (Path_Tags path)]> ∅))))).

(** One iteration of the loop. [allPaths\[r\] == nil] holds exactly when the
    key is missing, since every stored method map comes from [make];
    [allPaths\[r\]\[k\] = v] updates the method map stored under [r]. *)
Definition addPath (allPaths : pathsMap) (path : Path) : pathsMap :=
  let allPaths1 :=
    match allPaths !! Path_Route path with
    | None => <[Path_Route path := ∅]> allPaths
    | Some _ => allPaths
    end in
  alter (λ methods : methodsMap,
           <[ToLower (Path_HTTPMethod path) := VMap (pathMap path)]> methods)
        (Path_Route path) allPaths1.

Definition makeAllPathsMap (paths : list Path) : pathsMap :=
  fold_left addPath paths ∅.

(** The map stored under a schema's name. *)
Definition schemaMap (s : Schema) : gmap string value :=
  let scheme : gmap string value :=
    <[keyRef := VString (Schema_Ref s)]>
    (<[keyProperties := VProperties (Schema_Properties s)]>
    (<[keyType := VString (Schema_Type s)]> ∅)) in
  if decide (XMLEntry_Name (Schema_XML s) ≠ "")
  then <[keyXML := VXML (Schema_XML s)]> scheme
  else scheme.

Definition makeComponentSchemasMap (schemas : list Schema) : gmap string value :=
  fold_left (λ schemesMap s, <[Schema_Name s := VMap (schemaMap s)]> schemesMap)
            schemas ∅.

(** The map stored under a security scheme's name. *)
Definition securitySchemeMap (ss : SecurityScheme) : gmap string value :=
  let scheme : gmap string value :=
    <[keyType := VString (SecurityScheme_Type ss)]>
    (<[keyName := VString (SecurityScheme_Name ss)]> ∅) in
  if decide (SecurityScheme_In ss ≠ "")
  then <[keyIn := VString (SecurityScheme_In ss)]> scheme
  else scheme.

Definition makeComponentSecuritySchemesMap (secSchemes : list SecurityScheme)
  : gmap string value :=
  fold_left (λ secSchemesMap ss,
               <[SecurityScheme_Name ss := VMap (securitySchemeMap ss)]> secSchemesMap)
            secSchemes ∅.

Definition addComponent (cm : componentsMap) (component : Component) : componentsMap :=
  <[keySecuritySchemes :=
      VMap (makeComponentSecuritySchemesMap (Component_SecuritySchemes component))]>
  (<[keySchemas := VMap (makeComponentSchemasMap (Component_Schemas component))]> cm).

Definition makeComponentsMap (components : list Component) : componentsMap :=
  fold_left addComponent components ∅.

(** ** The assembled document *)

Record hybridOAS := {
  OpenAPI : OASVersion;
  hInfo : Info;
  hExternalDocs : ExternalDocs;
  hServers : Servers;
  hTags : Tags;
  Paths : pathsMap;
  Components : componentsMap
}.

Definition transformToHybridOAS (o : OAS) : hybridOAS := {|
  OpenAPI := OAS_OASVersion o;
  hInfo := OAS_Info o;
  hExternalDocs := OAS_ExternalDocs o;
  hServers := OAS_Servers o;
  hTags := OAS_Tags o;
  Paths := makeAllPathsMap (OAS_Paths o);
  Components := makeComponentsMap (OAS_Components o)
|}.

(** The fields of [hybridOAS] as the YAML encoder sees them: the key of each
    field is its [yaml] struct tag, in declaration order; no tag carries
    [omitempty], so a field is listed whatever its value. *)
Inductive fieldValue :=
  | FOpenAPI (v : OASVersion)
  | FInfo (i : Info)
  | FExternalDocs (e : ExternalDocs)
  | FServers (s : Servers)
  | FTags (t : Tags)
  | FPaths (p : pathsMap)
  | FComponents (c : componentsMap).

Definition hybridOAS_fields (ho : hybridOAS) : list (string * fieldValue) :=
  [ ("openapi", FOpenAPI (OpenAPI ho));
    ("info", FInfo (hInfo ho));
    ("externalDocs", FExternalDocs (hExternalDocs ho));
    ("servers", FServers (hServers ho));
    ("tags", FTags (hTags ho));
    ("paths", FPaths (Paths ho));
    ("components", FComponents (Components ho)) ].

(** ** Observations used in the statements *)

(** The value stored under method key [method] of path key [route]. *)
Definition methodEntry (allPaths : pathsMap) (route method : string) : option value :=
  allPaths !! route ≫= λ methods : methodsMap, methods !! method.

(** The last route of the list registered for a path and a method key. *)
Definition lastRoute (paths : list Path) (route method : string) : option Path :=
  last (filter (λ path, Path_Route path = route
                        ∧ ToLower (Path_HTTPMethod path) = method) paths).

(** A per-method value that carries the six entries of route [path]. *)
Definition carriesRoute (path : Path) (v : value) : Prop :=
  ∃ m : gmap string value,
    v = VMap m
    ∧ m !! keyTags = Some (VStrings (Path_Tags path))
    ∧ m !! keySummary = Some (VString (Path_Summary path))
    ∧ m !! keyOperationID = Some (VString (Path_OperationID path))
    ∧ m !! keySecurity = Some (VSecurity (makeSecurityMap (Path_Security path)))
    ∧ m !! keyRequestBody = Some (VMap (makeRequestBodyMap (Path_RequestBody path)))
    ∧ m !! keyResponses = Some (VCodeMap (makeResponsesMap (Path_Responses path))).

End Model.

(** * The emission driver

    [BuildDocs] validates, serialises and writes. Its collaborators are not
    part of [build.go]: [initCallStackForRoutes] (a method of [*OAS], which
    may update the receiver), [yaml.Marshal], [os.Create], the buffered
    writer's [Write] and [Flush], and [File.Close]. They are parameters; the
    file system is a state of type [World] threaded through the calls. *)

Class Collaborators `{D : Decls} := {
  Err : Type;
  File : Type;
  World : Type;
  initCallStackForRoutes : OAS → option Err * OAS;
  yaml_Marshal : hybridOAS → list byte * option Err;
  os_Create : string → World → (File + Err) * World;
  Writer_Write : File → list byte → World → option Err * World;
  Writer_Flush : File → World → option Err * World;
  File_Close : File → World → option Err * World
}.

Section Emission.
Context `{C : Collaborators}.

(** A Go [error]: one raised by a collaborator, or
    [fmt.Errorf("<msg>: %w", err)], which wraps [err]. *)
Inductive error :=
  | External (e : Err)
  | Errorf (msg : string) (err : error).

(** The calls made to the collaborators, in order, with their results. *)
Inductive call :=
  | CallInit (res : option Err)
  | CallMarshal (res : option Err)
  | CallCreate (path : string) (res : File + Err)
  | CallWrite (f : File) (data : list byte) (res : option Err)
  | CallFlush (f : File) (res : option Err)
  | CallClose (f : File).

Record state := {
  world : World;
  calls : list call
}.

Definition IO (A : Type) : Type := state → A * state.

#[local] Instance IO_ret : MRet IO := λ A a st, (a, st).
#[local] Instance IO_bind : MBind IO := λ A B k m st, let (a, st1) := m st in k a st1.

Definition logged (c : call) : IO unit :=
  λ st, (tt, {| world := world st; calls := calls st ++ [c] |}).

Definition onWorld {A : Type} (op : World → A * World) : IO A :=
  λ st, let (a, w) := op (world st) in (a, {| world := w; calls := calls st |}).

Definition callInit (o : OAS) : IO (option Err * OAS) :=
  let r := initCallStackForRoutes o in
  logged (CallInit r.1);; mret r.

Definition callMarshal (ho : hybridOAS) : IO (list byte * option Err) :=
  let r := yaml_Marshal ho in
  logged (CallMarshal r.2);; mret r.

Definition callCreate (path : string) : IO (File + Err) :=
  r ← onWorld (os_Create path);
  logged (CallCreate path r);; mret r.

Definition callWrite (f : File) (data : list byte) : IO (option Err) :=
  r ← onWorld (Writer_Write f data);
  logged (CallWrite f data r);; mret r.

Definition callFlush (f : File) : IO (option Err) :=
  r ← onWorld (Writer_Flush f);
  logged (CallFlush f r);; mret r.

Definition callClose (f : File) : IO unit :=
  _ ← onWorld (File_Close f);
  logged (CallClose f).

Definition defaultDocsOutPath : string := "./internal/dist/openapi.yaml".

Record ConfigBuilder := {
  customPath : string
}.

Definition getPath (cb : ConfigBuilder) : string := customPath cb.

Definition getPathFromFirstElement (cbs : list ConfigBuilder) : string :=
  match cbs with
  | [] => defaultDocsOutPath
  | cb :: _ => getPath cb
  end.

Definition writeAndFlush (yml : list byte) (outYAML : File) : IO (option error) :=
  err ← callWrite outYAML yml;
  match err with
  | Some e => mret (Some (Errorf "failed writing to YAML output file" (External e)))
  | None =>
      err ← callFlush outYAML;
      match err with
      | Some e => mret (Some (Errorf "failed flushing output writer" (External e)))
      | None => mret None
      end
  end.

(** [defer outYAML.Close()] runs when the function returns, after the
    result has been computed, on the error path and on the normal one. *)
Definition createYAMLOutFile (outPath : string) (marshaledYAML : list byte)
  : IO (option error) :=
  r ← callCreate outPath;
  match r with
  | inr e => mret (Some (Errorf "failed creating yaml output file" (External e)))
  | inl outYAML =>
      res ← (err ← writeAndFlush marshaledYAML outYAML;
             match err with
             | Some e => mret (Some (Errorf "writing issue occurred" e))
             | None => mret None
             end);
      callClose outYAML;;
      mret res
  end.

Definition marshalToYAML (oas : OAS) : IO (list byte * option error) :=
  let transformedOAS := transformToHybridOAS oas in
  r ← callMarshal transformedOAS;
  match r.2 with
  | Some e => mret (r.1, Some (Errorf "failed marshaling to yaml" (External e)))
  | None => mret (r.1, None)
  end.

Definition BuildDocs (o : OAS) (conf : list ConfigBuilder) : IO (option error) :=
  r ← callInit o;
  match r.1 with
  | Some e =>
      mret (Some (Errorf "failed initiating call stack for registered routes"
                         (External e)))
  | None =>
      m ← marshalToYAML r.2;
      match m.2 with
      | Some e => mret (Some (Errorf "marshaling issue occurred" e))
      | None =>
          err ← createYAMLOutFile (getPathFromFirstElement conf) m.1;
          match err with
          | Some e =>
              mret (Some (Errorf "an issue occurred while saving to YAML output" e))
          | None => mret None
          end
      end
  end.

(** *** Observations used in the statements *)

(** The call operates on the handle [f]. *)
Definition usesHandle (f : File) (c : call) : Prop :=
  match c with
  | CallWrite g _ _ | CallFlush g _ | CallClose g => g = f
  | _ => False
  end.

(** Every handle a [Create] returned is closed by the last call of the log,
    and only that handle is used in between. *)
Inductive released : list call → Prop :=
  | released_nil : released []
  | released_skip c cs :
      (∀ f, ¬ usesHandle f c) → (∀ p f, c ≠ CallCreate p (inl f)) →
      released cs → released (c :: cs)
  | released_session p f ops :
      Forall (λ c, match c with
                   | CallWrite g _ _ | CallFlush g _ => g = f
                   | _ => False
                   end) ops →
      released (CallCreate p (inl f) :: ops ++ [CallClose f]).

(** The collaborator a call goes to. *)
Inductive collaborator :=
  | Init | Marshal | Create | Write | Flush | Close.

Definition callee (c : call) : collaborator :=
  match c with
  | CallInit _ => Init
  | CallMarshal _ => Marshal
  | CallCreate _ _ => Create
  | CallWrite _ _ _ => Write
  | CallFlush _ _ => Flush
  | CallClose _ => Close
  end.

End Emission.

(** * The transform over a store

    To follow which objects the transform writes, the same functions once
    more over a store. A map is a reference to a cell, [make] allocates a
    cell that is not in use, and [m\[k\] = v] updates the cell of [m]. A
    slice is the location of its backing array (a slice here always spans
    its whole array). The [OAS] value behind the receiver pointer is a part
    of the store; structs are values and hold the slices of their fields. *)

Abbreviation loc := positive.

Section Store.
Context {D : Decls}.

(** Modelled from the spec: the structs of the input as above, each slice
    field now the location of its backing array. *)
Record RequestBodyH := {
  RequestBodyH_Description : string;
  RequestBodyH_Content : loc
}.

Record ResponseH := {
  ResponseH_Code : N;
  ResponseH_Description : string;
  ResponseH_Content : loc
}.

Record SecurityEntityH := {
  SecurityEntityH_AuthName : string;
  SecurityEntityH_PermTypes : loc
}.

Record PathH := {
  PathH_Route : string;
  PathH_HTTPMethod : string;
  PathH_Tags : loc;
  PathH_Summary : string;
  PathH_OperationID : string;
  PathH_Security : loc;
  PathH_RequestBody : RequestBodyH;
  PathH_Responses : loc
}.

Record ComponentH := {
  ComponentH_Schemas : loc;
  ComponentH_SecuritySchemes : loc
}.

Record OASH := {
  OASH_OASVersion : OASVersion;
  OASH_Info : Info;
  OASH_ExternalDocs : ExternalDocs;
  OASH_Servers : Servers;
  OASH_Tags : Tags;
  OASH_Paths : loc;
  OASH_Components : loc
}.

(** What an [interface{}] slot or a typed map slot holds: scalars and
    copied structs by value, maps and slices by reference. *)
Inductive hval :=
  | HString (s : string)
  | HStrings (a : loc)
  | HProperties (p : SchemaProperties)
  | HXML (x : XMLEntry)
  | HSecurity (a : loc)
  | HMap (m : loc)
  | HCodeMap (m : loc).

Inductive cell :=
  | CMap (kv : gmap string hval)
  | CCodeMap (kv : gmap N hval)
  | CSecurityMaps (a : list loc)
  | CStrings (a : list string)
  | CContentTypes (a : list ContentType)
  | CResponses (a : list ResponseH)
  | CSecurityEntities (a : list SecurityEntityH)
  | CPaths (a : list PathH)
  | CSchemas (a : list Schema)
  | CSecuritySchemes (a : list SecurityScheme)
  | CComponents (a : list ComponentH).

Record heap := {
  receiver : OASH;
  cells : gmap loc cell
}.

Definition Mem (A : Type) : Type := heap → A * heap.

#[local] Instance Mem_ret : MRet Mem := λ A a h, (a, h).
#[local] Instance Mem_bind : MBind Mem := λ A B k m h, let (a, h1) := m h in k a h1.

Definition setCell (l : loc) (c : cell) (h : heap) : heap :=
  {| receiver := receiver h; cells := <[l := c]> (cells h) |}.

(** [make]: a cell at a location that is not in use. *)
Definition alloc (c : cell) : Mem loc :=
  λ h, let l := fresh (dom (cells h)) in (l, setCell l c h).

Definition makeMap : Mem loc := alloc (CMap ∅).
Definition makeCodeMap : Mem loc := alloc (CCodeMap ∅).
Definition makeSecurityMaps : Mem loc := alloc (CSecurityMaps []).

(** [m\[k\] = v]; on anything but a map of that kind (a nil map, which
    would panic) nothing is stored. *)
Definition mapStore (m : loc) (k : string) (v : hval) : Mem unit :=
  λ h, match cells h !! m with
       | Some (CMap kv) => (tt, setCell m (CMap (<[k := v]> kv)) h)
       | _ => (tt, h)
       end.

Definition codeMapStore (m : loc) (k : N) (v : hval) : Mem unit :=
  λ h, match cells h !! m with
       | Some (CCodeMap kv) => (tt, setCell m (CCodeMap (<[k := v]> kv)) h)
       | _ => (tt, h)
       end.

(** [m\[k\]]: [None] is the zero value ([nil]) of a missing key. *)
Definition mapLoad (m : loc) (k : string) : Mem (option hval) :=
  λ h, (match cells h !! m with
        | Some (CMap kv) => kv !! k
        | _ => None
        end, h).

(** [append] within the capacity reserved by [make(_, 0, n)]: the element
    is written to the backing array of the slice. *)
Definition appendSecurityMap (a : loc) (m : loc) : Mem unit :=
  λ h, match cells h !! a with
       | Some (CSecurityMaps ms) => (tt, setCell a (CSecurityMaps (ms ++ [m])) h)
       | _ => (tt, h)
       end.

(** Reading the receiver and the backing arrays. *)
Definition readReceiver : Mem OASH := λ h, (receiver h, h).

Definition contentTypesAt (a : loc) (h : heap) : list ContentType :=
  match cells h !! a with Some (CContentTypes xs) => xs | _ => [] end.
Definition responsesAt (a : loc) (h : heap) : list ResponseH :=
  match cells h !! a with Some (CResponses xs) => xs | _ => [] end.
Definition securityEntitiesAt (a : loc) (h : heap) : list SecurityEntityH :=
  match cells h !! a with Some (CSecurityEntities xs) => xs | _ => [] end.
Definition pathsAt (a : loc) (h : heap) : list PathH :=
  match cells h !! a with Some (CPaths xs) => xs | _ => [] end.
Definition schemasAt (a : loc) (h : heap) : list Schema :=
  match cells h !! a with Some (CSchemas xs) => xs | _ => [] end.
Definition securitySchemesAt (a : loc) (h : heap) : list SecurityScheme :=
  match cells h !! a with Some (CSecuritySchemes xs) => xs | _ => [] end.
Definition componentsAt (a : loc) (h : heap) : list ComponentH :=
  match cells h !! a with Some (CComponents xs) => xs | _ => [] end.

(** [for _, x := range s]: the length is taken once, element [i] is read
    from the array when iteration [i] starts. *)
Fixpoint rangeFrom {A : Type} (elems : heap → list A) (body : A → Mem unit)
    (i n : nat) : Mem unit :=
  match n with
  | 0 => mret tt
  | S n' =>
      λ h, match elems h !! i with
           | Some x => (body x;; rangeFrom elems body (S i) n') h
           | None => (tt, h)
           end
  end.

Definition range {A : Type} (elems : heap → list A) (body : A → Mem unit) : Mem unit :=
  λ h, rangeFrom elems body 0 (length (elems h)) h.

Definition makeContentSchemaMapH (content : loc) : Mem loc :=
  contentSchemaMap ← makeMap;
  range (contentTypesAt content) (λ ct,
    refMap ← makeMap;
    mapStore refMap keyRef (HString (ContentType_Schema ct));;
    schemaMap ← makeMap;
    mapStore schemaMap "schema" (HMap refMap);;
    mapStore contentSchemaMap (ContentType_Name ct) (HMap schemaMap));;
  mret contentSchemaMap.

Definition makeSecurityMapH (se : loc) : Mem loc :=
  securityMaps ← makeSecurityMaps;
  range (securityEntitiesAt se) (λ sec,
    securityMap ← makeMap;
    mapStore securityMap (SecurityEntityH_AuthName sec)
             (HStrings (SecurityEntityH_PermTypes sec));;
    appendSecurityMap securityMaps securityMap);;
  mret securityMaps.

Definition makeResponsesMapH (responses : loc) : Mem loc :=
  responsesMap ← makeCodeMap;
  range (responsesAt responses) (λ resp,
    codeBodyMap ← makeMap;
    mapStore codeBodyMap keyDescription (HString (ResponseH_Description resp));;
    content ← makeContentSchemaMapH (ResponseH_Content resp);
    mapStore codeBodyMap keyContent (HMap content);;
    codeMapStore responsesMap (ResponseH_Code resp) (HMap codeBodyMap));;
  mret responsesMap.

Definition makeRequestBodyMapH (reqBody : RequestBodyH) : Mem loc :=
  reqBodyMap ← makeMap;
  mapStore reqBodyMap keyDescription (HString (RequestBodyH_Description reqBody));;
  content ← makeContentSchemaMapH (RequestBodyH_Content reqBody);
  mapStore reqBodyMap keyContent (HMap content);;
  mret reqBodyMap.

Definition makeAllPathsMapH (paths : loc) : Mem loc :=
  allPaths ← makeMap;
  range (pathsAt paths) (λ path,
    existing ← mapLoad allPaths (PathH_Route path);
    match existing with
    | None =>
        methods ← makeMap;
        mapStore allPaths (PathH_Route path) (HMap methods)
    | Some _ => mret tt
    end;;
    pathMap ← makeMap;
    mapStore pathMap keyTags (HStrings (PathH_Tags path));;
    mapStore pathMap keySummary (HString (PathH_Summary path));;
    mapStore pathMap keyOperationID (HString (PathH_OperationID path));;
    security ← makeSecurityMapH (PathH_Security path);
    mapStore pathMap keySecurity (HSecurity security);;
    requestBody ← makeRequestBodyMapH (PathH_RequestBody path);
    mapStore pathMap keyRequestBody (HMap requestBody);;
    responses ← makeResponsesMapH (PathH_Responses path);
    mapStore pathMap keyResponses (HCodeMap responses);;
    methods ← mapLoad allPaths (PathH_Route path);
    match methods with
    | Some (HMap methods) =>
        mapStore methods (ToLower (PathH_HTTPMethod path)) (HMap pathMap)
    | _ => mret tt
    end);;
  mret allPaths.

Definition makeComponentSchemasMapH (schemas : loc) : Mem loc :=
  schemesMap ← makeMap;
  range (schemasAt schemas) (λ s,
    scheme ← makeMap;
    mapStore scheme keyType (HString (Schema_Type s));;
    mapStore scheme keyProperties (HProperties (Schema_Properties s));;
    mapStore scheme keyRef (HString (Schema_Ref s));;
    (if decide (XMLEntry_Name (Schema_XML s) ≠ "")
     then mapStore scheme keyXML (HXML (Schema_XML s))
     else mret tt);;
    mapStore schemesMap (Schema_Name s) (HMap scheme));;
  mret schemesMap.

Definition makeComponentSecuritySchemesMapH (secSchemes : loc) : Mem loc :=
  secSchemesMap ← makeMap;
  range (securitySchemesAt secSchemes) (λ ss,
    scheme ← makeMap;
    mapStore scheme keyName (HString (SecurityScheme_Name ss));;
    mapStore scheme keyType (HString (SecurityScheme_Type ss));;
    (if decide (SecurityScheme_In ss ≠ "")
     then mapStore scheme keyIn (HString (SecurityScheme_In ss))
     else mret tt);;
    mapStore secSchemesMap (SecurityScheme_Name ss) (HMap scheme));;
  mret secSchemesMap.

Definition makeComponentsMapH (components : loc) : Mem loc :=
  cm ← makeMap;
  range (componentsAt components) (λ component,
    schemas ← makeComponentSchemasMapH (ComponentH_Schemas component);
    mapStore cm keySchemas (HMap schemas);;
    securitySchemes ←
      makeComponentSecuritySchemesMapH (ComponentH_SecuritySchemes component);
    mapStore cm keySecuritySchemes (HMap securitySchemes));;
  mret cm.

Record hybridOASH := {
  OpenAPIH : OASVersion;
  InfoH : Info;
  ExternalDocsH : ExternalDocs;
  ServersH : Servers;
  TagsH : Tags;
  PathsH : loc;
  ComponentsH : loc
}.

(** The receiver is read where the source reads it: its metadata fields
    first, [o.Paths] when [makeAllPathsMap] starts, [o.Components] when
    [makeComponentsMap] starts. *)
Definition transformToHybridOASH : Mem hybridOASH :=
  o ← readReceiver;
  let openAPI := OASH_OASVersion o in
  let info := OASH_Info o in
  let externalDocs := OASH_ExternalDocs o in
  let servers := OASH_Servers o in
  let tags := OASH_Tags o in
  o1 ← readReceiver;
  paths ← makeAllPathsMapH (OASH_Paths o1);
  o2 ← readReceiver;
  components ← makeComponentsMapH (OASH_Components o2);
  mret {| OpenAPIH := openAPI; InfoH := info; ExternalDocsH := externalDocs;
          ServersH := servers; TagsH := tags;
          PathsH := paths; ComponentsH := components |}.

(** *** Observations used in the statements *)

(** The maps an [interface{}] slot refers to, directly or through a
    [pathSecurityMaps] slice. *)
Definition mapsOf (h : heap) (v : hval) : list loc :=
  match v with
  | HMap m | HCodeMap m => [m]
  | HSecurity a =>
      match cells h !! a with Some (CSecurityMaps ms) => ms | _ => [] end
  | _ => []
  end.

(** [m'] is the value of an entry of the map [m]. *)
Definition mapChild (h : heap) (m m' : loc) : Prop :=
  match cells h !! m with
  | Some (CMap kv) => ∃ k v, kv !! k = Some v ∧ m' ∈ mapsOf h v
  | Some (CCodeMap kv) => ∃ k v, kv !! k = Some v ∧ m' ∈ mapsOf h v
  | _ => False
  end.

(** The maps of the tree under [root]. *)
Inductive inTree (h : heap) (root : loc) : loc → Prop :=
  | inTree_root : inTree h root root
  | inTree_child m m' : inTree h root m → mapChild h m m' → inTree h root m'.




(** The entry under key [k] of the map in cell [m]. *)
Definition storeEntry (h : heap) (m : loc) (k : string) : option hval :=
  match cells h !! m with Some (CMap kv) => kv !! k | _ => None end.

Definition codeEntry (h : heap) (m : loc) (code : N) : option hval :=
  match cells h !! m with Some (CCodeMap kv) => kv !! code | _ => None end.

(** Relative to the store [h0] in which the transform starts: [l] was
    allocated since. *)
Definition isNew (h0 h : heap) (l : loc) : Prop :=
  cells h0 !! l = None ∧ is_Some (cells h !! l).

(** The references a value holds directly. *)
Definition refsOf (v : hval) : list loc :=
  match v with
  | HMap m | HCodeMap m | HSecurity m => [m]
  | _ => []
  end.

Definition cellNew (h0 h : heap) (c : cell) : Prop :=
  match c with
  | CMap kv => map_Forall (λ _ v, Forall (isNew h0 h) (refsOf v)) kv
  | CCodeMap kv => map_Forall (λ _ v, Forall (isNew h0 h) (refsOf v)) kv
  | CSecurityMaps ms => Forall (isNew h0 h) ms
  | _ => True
  end.

(** The receiver and the cells of [h0] are as they were, and the maps and
    map slices allocated since refer to cells allocated since. *)
Record untouched (h0 h : heap) : Prop := {
  untouched_receiver : receiver h = receiver h0;
  untouched_cells : ∀ l c, cells h0 !! l = Some c → cells h !! l = Some c;
  untouched_new : ∀ l c, cells h0 !! l = None → cells h !! l = Some c → cellNew h0 h c
}.

(** Run from a store in which the locations [live] are new, [f] keeps
    [untouched], frees nothing, and the locations [out] of its result are
    new. *)
Definition keepsFresh (h0 : heap) (live : list loc) {A : Type} (f : Mem A)
    (out : A → list loc) : Prop :=
  ∀ h, untouched h0 h → Forall (isNew h0 h) live →
    untouched h0 (f h).2
    ∧ dom (cells h) ⊆ dom (cells (f h).2)
    ∧ Forall (isNew h0 (f h).2) (out (f h).1).

(** The state in which [makeSecurityMap] is after [i] iterations: the
    store [h] it started from is intact, and the new array [sm] lists one
    new single-entry map per requirement seen. *)
Definition securityMapsBuilt (h : heap) (sm : loc) (xs : list SecurityEntityH)
    (i : nat) (h' : heap) : Prop :=
  (∀ l c, cells h !! l = Some c → cells h' !! l = Some c)
  ∧ ∃ ms : list loc,
      cells h' !! sm = Some (CSecurityMaps ms)
      ∧ NoDup ms
      ∧ Forall2 (λ m sec,
                   m ≠ sm ∧ cells h !! m = None
                   ∧ cells h' !! m
                     = Some (CMap (<[SecurityEntityH_AuthName sec :=
                                       HStrings (SecurityEntityH_PermTypes sec)]> ∅)))
                ms (take i xs).

End Store.

(** * Example inputs *)

Section Examples.
#[local] Existing Instance plainDecls.

(** A route with the given path, method and summary and nothing else. *)
Definition exampleRoute (route method summary : string) : Path := {|
  Path_Route := route;
  Path_HTTPMethod := method;
  Path_Tags := [];
  Path_Summary := summary;
  Path_OperationID := "";
  Path_Security := [];
  Path_RequestBody := {| RequestBody_Description := ""; RequestBody_Content := [] |};
  Path_Responses := []
|}.

(** Three routes of one path: [GET], [POST], and [get] in lower case. *)
Definition usersRoutes : list Path :=
  [ exampleRoute "/users" "GET" "first";
    exampleRoute "/users" "POST" "second";
    exampleRoute "/users" "get" "third" ].

(** The scenario of one route: [GET /users] with a response [200] of media
    type [application/json]. *)
Definition usersGet : Path := {|
  Path_Route := "/users"; Path_HTTPMethod := "GET";
  Path_Tags := ["users"]; Path_Summary := "list users";
  Path_OperationID := "listUsers"; Path_Security := [];
  Path_RequestBody := {| RequestBody_Description := ""; RequestBody_Content := [] |};
  Path_Responses := [ {|
    Response_Code := 200; Response_Description := "ok";
    Response_Content := [ {| ContentType_Name := "application/json";
                             ContentType_Schema := "#/components/schemas/User" |} ] |} ]
|}.

(** The same scenario laid out in a store: the receiver, the backing
    arrays of its slices in cells 1 to 7, and no components. *)
Definition exampleStore : @heap plainDecls := {|
  receiver := {|
    OASH_OASVersion := "3.0.1"; OASH_Info := "users API";
    OASH_ExternalDocs := ""; OASH_Servers := []; OASH_Tags := [];
    OASH_Paths := 1%positive; OASH_Components := 7%positive |};
  cells :=
    <[1%positive := CPaths [ {|
         PathH_Route := "/users"; PathH_HTTPMethod := "GET";
         PathH_Tags := 2%positive; PathH_Summary := "list users";
         PathH_OperationID := "listUsers"; PathH_Security := 3%positive;
         PathH_RequestBody := {| RequestBodyH_Description := "";
                                 RequestBodyH_Content := 4%positive |};
         PathH_Responses := 5%positive |} ] ]>
    (<[2%positive := CStrings ["users"] ]>
    (<[3%positive := CSecurityEntities [] ]>
    (<[4%positive := CContentTypes [] ]>
    (<[5%positive := CResponses [ {|
         ResponseH_Code := 200; ResponseH_Description := "ok";
         ResponseH_Content := 6%positive |} ] ]>
    (<[6%positive := CContentTypes [ {|
         ContentType_Name := "application/json";
         ContentType_Schema := "#/components/schemas/User" |} ] ]>
    (<[7%positive := CComponents [] ]> ∅))))))
|}.

(** A store with nothing allocated: the slices of the receiver are nil. *)
Definition emptyStore : @heap plainDecls := {|
  receiver := {|
    OASH_OASVersion := "3.0.1"; OASH_Info := "";
    OASH_ExternalDocs := ""; OASH_Servers := []; OASH_Tags := [];
    OASH_Paths := 1%positive; OASH_Components := 2%positive |};
  cells := ∅
|}.

(** Collaborators for running [BuildDocs]: validation and the encoder
    always succeed (the encoder returns no bytes), a file system that
    refuses the empty path and keeps the bytes written per path. *)
Definition plainCollaborators : @Collaborators plainDecls := {|
  Err := string;
  File := string;
  World := gmap string (list byte);
  initCallStackForRoutes := λ o, (None, o);
  yaml_Marshal := λ _, ([], None);
  os_Create := λ path w,
    if decide (path = "") then (inr "open : no such file or directory", w)
    else (inl path, <[path := []]> w);
  Writer_Write := λ f data w, (None, <[f := data]> w);
  Writer_Flush := λ f w, (None, w);
  File_Close := λ f w, (None, w)
|}.

Definition emptyOAS : @OAS plainDecls := {|
  OAS_OASVersion := "3.0.1"; OAS_Info := ""; OAS_ExternalDocs := "";
  OAS_Servers := []; OAS_Tags := []; OAS_Paths := []; OAS_Components := []
|}.

(** Collaborators with a file system that keeps, besides the bytes per
    path, the list of the open handles: [Create] opens one, [Close] closes
    it, and a write to [/dev/full] fails. The encoder returns [{}]. *)
Definition trackingCollaborators : @Collaborators plainDecls := {|
  Err := string;
  File := string;
  World := gmap string (list byte) * list string;
  initCallStackForRoutes := λ o, (None, o);
  yaml_Marshal := λ _, ([x7b; x7d], None);
  os_Create := λ path w,
    if decide (path = "") then (inr "open : no such file or directory", w)
    else (inl path, (<[path := []]> w.1, path :: w.2));
  Writer_Write := λ f data w,
    if decide (f = "/dev/full") then (Some "no space left on device", w)
    else (None, (<[f := data]> w.1, w.2));
  Writer_Flush := λ f w, (None, w);
  File_Close := λ f w, (None, (w.1, filter (λ g, g ≠ f) w.2))
|}.

(** Collaborators whose validation refuses every description. *)
Definition refusingCollaborators : @Collaborators plainDecls := {|
  Err := string;
  File := string;
  World := gmap string (list byte);
  initCallStackForRoutes := λ o, (Some "route is not registered", o);
  yaml_Marshal := λ _, ([], None);
  os_Create := λ path w, (inl path, <[path := []]> w);
  Writer_Write := λ f data w, (None, <[f := data]> w);
  Writer_Flush := λ f w, (None, w);
  File_Close := λ f w, (None, w)
|}.

(** A store with one security requirement in cell 1, its permission
    slice in cell 2. *)
Definition securityStore : @heap plainDecls := {|
  receiver := {|
    OASH_OASVersion := "3.0.1"; OASH_Info := "";
    OASH_ExternalDocs := ""; OASH_Servers := []; OASH_Tags := [];
    OASH_Paths := 3%positive; OASH_Components := 4%positive |};
  cells :=
    <[1%positive := CSecurityEntities [ {|
         SecurityEntityH_AuthName := "petstore_auth";
         SecurityEntityH_PermTypes := 2%positive |} ] ]>
    (<[2%positive := CStrings ["write:pets"; "read:pets"] ]> ∅)
|}.

End Examples.

(** * Properties of the byte-wise lowering *)

Lemma lowerByte_not_upper (c : ascii) : isUpperByte (lowerByte c) = false.
Proof.
  unfold lowerByte. destruct (isUpperByte c) eqn:Hc; [|done].
  unfold isUpperByte in *.
  apply andb_true_iff in Hc as [Hlo%N.leb_le Hhi%N.leb_le].
  rewrite N_ascii_embedding; [|lia].
  apply andb_false_iff. right. apply N.leb_gt. lia.
Qed.

Lemma lowerASCII_no_upper (s : string) : hasUpper (lowerASCII s) = false.
Proof.
  induction s as [|c s IH]; [done|].
  simpl. by rewrite lowerByte_not_upper IH.
Qed.

(** * Properties of the builders *)

Section Builders.
Context {D : Decls}.

(** A loop that stores [val a] under [key a] for each element in turn keeps,
    for every key, the value of the last element with that key. *)
Lemma fold_insert_lookup `{Countable K} {A V : Type}
    (key : A → K) (val : A → V) (l : list A) (m0 : gmap K V) (k : K) :
  fold_left (λ m a, <[key a := val a]> m) l m0 !! k =
  match last (filter (λ a, key a = k) l) with
  | Some a => Some (val a)
  | None => m0 !! k
  end.
Proof.
  induction l as [|a l IH] using rev_ind; [done|].
  rewrite fold_left_app filter_app last_app /=.
  rewrite filter_cons filter_nil.
  destruct (decide (key a = k)) as [->|Hne]; simpl.
  - by rewrite lookup_insert_eq.
  - by rewrite lookup_insert_ne.
Qed.

Lemma fold_insert_lookup_empty `{Countable K} {A V : Type}
    (key : A → K) (val : A → V) (l : list A) (k : K) :
  fold_left (λ m a, <[key a := val a]> m) l (∅ : gmap K V) !! k =
  val <$> last (filter (λ a, key a = k) l).
Proof.
  rewrite fold_insert_lookup lookup_empty.
  by destruct (last _).
Qed.

(** *** Responses *)

(** C4: [makeResponsesMap] keys the [{description, content}] map of each
    response by its status code; of several responses with one code the last
    one of the list is the one kept, and a code no response has is absent.
    The builder is a total function: it has no error result. *)
Theorem makeResponsesMap_last_wins (responses : list Response) (code : N) :
  makeResponsesMap responses !! code =
    (λ resp, VMap (<[keyContent := VMap (makeContentSchemaMap (Response_Content resp))]>
                   (<[keyDescription := VString (Response_Description resp)]> ∅)))
    <$> last (filter (λ resp, Response_Code resp = code) responses).
Proof.
  unfold makeResponsesMap.
  by rewrite (fold_insert_lookup_empty Response_Code (λ resp, VMap (codeBodyMap resp))).
Qed.

(** *** Component schemas and security schemes *)

Lemma makeComponentSchemasMap_lookup (schemas : list Schema) (name : string) :
  makeComponentSchemasMap schemas !! name =
    (λ s, VMap (schemaMap s)) <$> last (filter (λ s, Schema_Name s = name) schemas).
Proof.
  unfold makeComponentSchemasMap.
  by rewrite (fold_insert_lookup_empty Schema_Name (λ s, VMap (schemaMap s))).
Qed.

Lemma makeComponentSecuritySchemesMap_lookup (secSchemes : list SecurityScheme)
    (name : string) :
  makeComponentSecuritySchemesMap secSchemes !! name =
    (λ ss, VMap (securitySchemeMap ss))
    <$> last (filter (λ ss, SecurityScheme_Name ss = name) secSchemes).
Proof.
  unfold makeComponentSecuritySchemesMap.
  by rewrite (fold_insert_lookup_empty SecurityScheme_Name
                (λ ss, VMap (securitySchemeMap ss))).
Qed.

(** C5: the map built for a schema has the key ["xml"] exactly when the
    name of its XML entry is not empty, and then the value is the schema's
    XML entry itself; with an empty name the map has the three keys
    ["type"], ["properties"] and ["$ref"] only. Every value that
    [makeComponentSchemasMap] stores is such a map. *)
Theorem schemaMap_xml_key (s : Schema) :
  schemaMap s !! keyXML =
    (if decide (XMLEntry_Name (Schema_XML s) = "") then None
     else Some (VXML (Schema_XML s)))
  ∧ (is_Some (schemaMap s !! keyXML) ↔ XMLEntry_Name (Schema_XML s) ≠ "")
  ∧ dom (schemaMap s) =
      (if decide (XMLEntry_Name (Schema_XML s) = "")
       then {[keyType; keyProperties; keyRef]}
       else {[keyType; keyProperties; keyRef; keyXML]} : gset string)
  ∧ makeComponentSchemasMap [s] !! Schema_Name s = Some (VMap (schemaMap s)).
Proof.
  split_and!.
  - unfold schemaMap.
    destruct (decide (XMLEntry_Name (Schema_XML s) ≠ "")) as [Hne|He];
      destruct (decide (XMLEntry_Name (Schema_XML s) = "")) as [He'|Hne']; try done;
      by rewrite lookup_insert_eq.
  - unfold schemaMap.
    destruct (decide (XMLEntry_Name (Schema_XML s) ≠ "")) as [Hne|He].
    + rewrite lookup_insert_eq. split; [done|by eexists].
    + split; [intros [v Hv]; by vm_compute in Hv|done].
  - unfold schemaMap.
    destruct (decide (XMLEntry_Name (Schema_XML s) ≠ "")) as [Hne|He];
      destruct (decide (XMLEntry_Name (Schema_XML s) = "")) as [He'|Hne']; try done;
      rewrite !dom_insert_L dom_empty_L; set_solver.
  - unfold makeComponentSchemasMap. simpl. by rewrite lookup_insert_eq.
Qed.

(** C6: the map built for a security scheme always has the keys ["name"]
    and ["type"], and has the key ["in"] exactly when the scheme's location
    is not empty, holding that location unchanged. *)
Theorem securitySchemeMap_in_key (ss : SecurityScheme) :
  securitySchemeMap ss !! keyIn =
    (if decide (SecurityScheme_In ss = "") then None
     else Some (VString (SecurityScheme_In ss)))
  ∧ (is_Some (securitySchemeMap ss !! keyIn) ↔ SecurityScheme_In ss ≠ "")
  ∧ securitySchemeMap ss !! keyName = Some (VString (SecurityScheme_Name ss))
  ∧ securitySchemeMap ss !! keyType = Some (VString (SecurityScheme_Type ss))
  ∧ makeComponentSecuritySchemesMap [ss] !! SecurityScheme_Name ss
      = Some (VMap (securitySchemeMap ss)).
Proof.
  split_and!.
  - unfold securitySchemeMap.
    destruct (decide (SecurityScheme_In ss ≠ "")) as [Hne|He];
      destruct (decide (SecurityScheme_In ss = "")) as [He'|Hne']; try done;
      by rewrite lookup_insert_eq.
  - unfold securitySchemeMap.
    destruct (decide (SecurityScheme_In ss ≠ "")) as [Hne|He].
    + rewrite lookup_insert_eq. split; [done|by eexists].
    + split; [intros [v Hv]; by vm_compute in Hv|done].
  - unfold securitySchemeMap. by case_decide.
  - unfold securitySchemeMap. by case_decide.
  - unfold makeComponentSecuritySchemesMap. simpl. by rewrite lookup_insert_eq.
Qed.

(** *** Components *)

Lemma addComponent_overwrites (cm : gmap string value) (c1 c2 : Component) :
  addComponent (addComponent cm c1) c2 = addComponent cm c2.
Proof.
  apply map_eq; intros k. unfold addComponent.
  rewrite !lookup_insert. by repeat case_decide.
Qed.

Lemma fold_addComponent_last (cs : list Component) (c : Component) (cm : gmap string value) :
  fold_left addComponent cs (addComponent cm c) = addComponent cm (default c (last cs)).
Proof.
  revert c. induction cs as [|c' cs IH]; intros c; [done|].
  simpl fold_left. rewrite addComponent_overwrites IH last_cons.
  by destruct (last cs).
Qed.

(** C1: for a Components list of two or more entries (any list with a last
    entry [c] after the entries [earlier]) the components map is the one
    built from [c] alone: ["schemas"] and ["securitySchemes"] hold the maps
    of [c], whose keys are the names of the schemas and schemes of [c] and
    nothing else. *)
Theorem makeComponentsMap_last_wins (earlier : list Component) (c : Component) :
  makeComponentsMap (earlier ++ [c]) = makeComponentsMap [c]
  ∧ makeComponentsMap (earlier ++ [c]) !! keySchemas
      = Some (VMap (makeComponentSchemasMap (Component_Schemas c)))
  ∧ makeComponentsMap (earlier ++ [c]) !! keySecuritySchemes
      = Some (VMap (makeComponentSecuritySchemesMap (Component_SecuritySchemes c)))
  ∧ (∀ name, is_Some (makeComponentSchemasMap (Component_Schemas c) !! name)
             ↔ ∃ s, s ∈ Component_Schemas c ∧ Schema_Name s = name)
  ∧ (∀ name, is_Some (makeComponentSecuritySchemesMap (Component_SecuritySchemes c) !! name)
             ↔ ∃ ss, ss ∈ Component_SecuritySchemes c ∧ SecurityScheme_Name ss = name).
Proof.
  assert (Heq : makeComponentsMap (earlier ++ [c]) = makeComponentsMap [c]).
  { unfold makeComponentsMap. rewrite fold_left_app. simpl.
    destruct earlier as [|c0 earlier]; [done|].
    simpl fold_left. by rewrite fold_addComponent_last addComponent_overwrites. }
  split_and!; [done| | | |].
  - rewrite Heq. done.
  - rewrite Heq. done.
  - intros name. rewrite makeComponentSchemasMap_lookup fmap_is_Some.
    split.
    + intros [s Hs]. exists s. apply last_Some_elem_of in Hs.
      by apply list_elem_of_filter in Hs as [? ?].
    + intros (s & Hin & Hname).
      destruct (last _) eqn:Hlast; [by eexists|].
      apply last_None in Hlast.
      assert (s ∈ filter (λ s, Schema_Name s = name) (Component_Schemas c)) as Hf
        by by apply list_elem_of_filter.
      rewrite Hlast in Hf. by apply elem_of_nil in Hf.
  - intros name. rewrite makeComponentSecuritySchemesMap_lookup fmap_is_Some.
    split.
    + intros [s Hs]. exists s. apply last_Some_elem_of in Hs.
      by apply list_elem_of_filter in Hs as [? ?].
    + intros (s & Hin & Hname).
      destruct (last _) eqn:Hlast; [by eexists|].
      apply last_None in Hlast.
      assert (s ∈ filter (λ s, SecurityScheme_Name s = name)
                         (Component_SecuritySchemes c)) as Hf
        by by apply list_elem_of_filter.
      rewrite Hlast in Hf. by apply elem_of_nil in Hf.
Qed.

(** *** Paths *)

Lemma VMap_inj (m1 m2 : gmap string value) : VMap m1 = VMap m2 → m1 = m2.
Proof. intros H. by injection H. Qed.

Lemma pathMap_carriesRoute (path : Path) : carriesRoute path (VMap (pathMap path)).
Proof. exists (pathMap path). by split_and!. Qed.

Lemma addPath_dom (allPaths : gmap string (gmap string value)) (path : Path) :
  dom (addPath allPaths path) = {[Path_Route path]} ∪ dom allPaths.
Proof.
  unfold addPath. apply set_eq; intros r.
  rewrite elem_of_dom lookup_alter_is_Some -elem_of_dom.
  destruct (allPaths !! Path_Route path) eqn:Hr.
  - assert (Path_Route path ∈ dom allPaths) by (apply elem_of_dom; eauto).
    set_solver.
  - rewrite dom_insert_L. set_solver.
Qed.

Lemma addPath_entry (allPaths : gmap string (gmap string value)) (path : Path)
    (route method : string) :
  methodEntry (addPath allPaths path) route method =
    if decide (Path_Route path = route ∧ ToLower (Path_HTTPMethod path) = method)
    then Some (VMap (pathMap path))
    else methodEntry allPaths route method.
Proof.
  unfold methodEntry, addPath.
  rewrite lookup_alter.
  destruct (decide (Path_Route path = route)) as [<-|Hroute].
  - destruct (allPaths !! Path_Route path) as [methods|] eqn:Hr; simpl.
    + rewrite Hr /= lookup_insert.
      destruct (decide (ToLower (Path_HTTPMethod path) = method)) as [<-|Hm].
      * by rewrite decide_True.
      * rewrite decide_False; [done|by intros [_ ?]].
    + rewrite lookup_insert_eq /= lookup_insert.
      destruct (decide (ToLower (Path_HTTPMethod path) = method)) as [<-|Hm].
      * by rewrite decide_True.
      * rewrite decide_False; [done|by intros [_ ?]].
  - rewrite decide_False; [|by intros [? _]].
    destruct (allPaths !! Path_Route path); [done|].
    by rewrite lookup_insert_ne.
Qed.

Lemma makeAllPathsMap_snoc (paths : list Path) (path : Path) :
  makeAllPathsMap (paths ++ [path]) = addPath (makeAllPathsMap paths) path.
Proof. unfold makeAllPathsMap. by rewrite fold_left_app. Qed.

(** The path keys are the path strings of the routes. *)
Lemma makeAllPathsMap_dom (paths : list Path) :
  dom (makeAllPathsMap paths) = list_to_set (Path_Route <$> paths).
Proof.
  induction paths as [|path paths IH] using rev_ind; [done|].
  rewrite makeAllPathsMap_snoc addPath_dom IH fmap_app list_to_set_app_L /=.
  set_solver.
Qed.

Lemma makeAllPathsMap_size (paths : list Path) :
  size (makeAllPathsMap paths) = length (remove_dups (Path_Route <$> paths)).
Proof.
  rewrite -(size_dom (D:=gset string)) makeAllPathsMap_dom.
  rewrite -(size_list_to_set (C:=gset string) (remove_dups _));
    [|apply NoDup_remove_dups].
  f_equal. apply set_eq; intros r.
  by rewrite !elem_of_list_to_set elem_of_remove_dups.
Qed.

(** Under a path key and a method key sits the map of the last route
    registered for them. *)
Lemma makeAllPathsMap_entry (paths : list Path) (route method : string) :
  methodEntry (makeAllPathsMap paths) route method =
    (λ path, VMap (pathMap path)) <$> lastRoute paths route method.
Proof.
  unfold lastRoute.
  induction paths as [|path paths IH] using rev_ind; [done|].
  rewrite makeAllPathsMap_snoc addPath_entry IH filter_app last_app.
  rewrite filter_cons filter_nil.
  by destruct (decide (Path_Route path = route
                       ∧ ToLower (Path_HTTPMethod path) = method)).
Qed.

Lemma lastRoute_Some (paths : list Path) (route method : string) (path : Path) :
  lastRoute paths route method = Some path →
  path ∈ paths ∧ Path_Route path = route ∧ ToLower (Path_HTTPMethod path) = method.
Proof.
  unfold lastRoute. intros Hl%last_Some_elem_of.
  by apply list_elem_of_filter in Hl as [[? ?] ?].
Qed.

Lemma lastRoute_is_Some (paths : list Path) (path : Path) :
  path ∈ paths →
  is_Some (lastRoute paths (Path_Route path) (ToLower (Path_HTTPMethod path))).
Proof.
  unfold lastRoute. intros Hin.
  destruct (last _) eqn:Hlast; [by eexists|].
  apply last_None in Hlast.
  assert (path ∈ filter (λ p, Path_Route p = Path_Route path
      ∧ ToLower (Path_HTTPMethod p) = ToLower (Path_HTTPMethod path)) paths) as Hf
    by by apply list_elem_of_filter.
  rewrite Hlast in Hf. by apply elem_of_nil in Hf.
Qed.

Lemma methodEntry_Some (allPaths : gmap string (gmap string value))
    (route method : string) (v : value) :
  methodEntry allPaths route method = Some v ↔
  ∃ methods : gmap string value,
    allPaths !! route = Some methods ∧ methods !! method = Some v.
Proof.
  unfold methodEntry. destruct (allPaths !! route) as [methods|]; simpl.
  - split; [by exists methods|]. by intros (? & [= <-] & ?).
  - split; [done|]. by intros (? & ? & ?).
Qed.

(** C2: the paths map has one key per distinct path string of the route
    list. For two routes with the same path, each the last route of the list
    for its path and lowercased method, the shared path key holds one method
    map in which each route's map sits under its lowercased method and
    carries that route's tags, summary, operationId, security, requestBody
    and responses. *)
Theorem makeAllPathsMap_groups_methods (paths : list Path) (r1 r2 : Path) :
  lastRoute paths (Path_Route r1) (ToLower (Path_HTTPMethod r1)) = Some r1 →
  lastRoute paths (Path_Route r2) (ToLower (Path_HTTPMethod r2)) = Some r2 →
  Path_Route r1 = Path_Route r2 →
  dom (makeAllPathsMap paths) = list_to_set (Path_Route <$> paths)
  ∧ size (makeAllPathsMap paths) = length (remove_dups (Path_Route <$> paths))
  ∧ ∃ methods : gmap string value,
      makeAllPathsMap paths !! Path_Route r1 = Some methods
      ∧ methods !! ToLower (Path_HTTPMethod r1) = Some (VMap (pathMap r1))
      ∧ methods !! ToLower (Path_HTTPMethod r2) = Some (VMap (pathMap r2))
      ∧ carriesRoute r1 (VMap (pathMap r1))
      ∧ carriesRoute r2 (VMap (pathMap r2)).
Proof.
  intros H1 H2 Hroute.
  split; [apply makeAllPathsMap_dom|].
  split; [apply makeAllPathsMap_size|].
  pose proof (makeAllPathsMap_entry paths (Path_Route r1)
                (ToLower (Path_HTTPMethod r1))) as E1.
  pose proof (makeAllPathsMap_entry paths (Path_Route r2)
                (ToLower (Path_HTTPMethod r2))) as E2.
  rewrite H1 /= in E1. rewrite H2 /= in E2.
  apply methodEntry_Some in E1 as (methods & Hm & Hk1).
  apply methodEntry_Some in E2 as (methods' & Hm' & Hk2).
  rewrite -Hroute Hm in Hm'. injection Hm' as <-.
  exists methods. split_and!; try done; apply pathMap_carriesRoute.
Qed.

(** C3: the per-method map of every route of the list is inserted under the
    key [ToLower method] of its path key, every method key of the output is
    such a lowered method, and for a method written in ASCII the key is the
    method with its bytes ['A'..'Z'] replaced by ['a'..'z'], which has no
    upper-case byte left. *)
Theorem makeAllPathsMap_method_key_lowercase (paths : list Path) (path : Path) :
  path ∈ paths →
  (∃ (methods : gmap string value) (v : value),
      makeAllPathsMap paths !! Path_Route path = Some methods
      ∧ methods !! ToLower (Path_HTTPMethod path) = Some v)
  ∧ (∀ (route key : string) (methods : gmap string value),
       makeAllPathsMap paths !! route = Some methods →
       is_Some (methods !! key) →
       ∃ p, p ∈ paths ∧ Path_Route p = route ∧ key = ToLower (Path_HTTPMethod p))
  ∧ (isASCII (Path_HTTPMethod path) = true →
       ToLower (Path_HTTPMethod path) = lowerASCII (Path_HTTPMethod path)
       ∧ hasUpper (ToLower (Path_HTTPMethod path)) = false).
Proof.
  intros Hin. split_and!.
  - destruct (lastRoute_is_Some paths path Hin) as [p Hp].
    pose proof (makeAllPathsMap_entry paths (Path_Route path)
                  (ToLower (Path_HTTPMethod path))) as E.
    rewrite Hp /= in E. apply methodEntry_Some in E as (methods & ? & ?).
    by exists methods, (VMap (pathMap p)).
  - intros route key methods Hm [v Hv].
    pose proof (makeAllPathsMap_entry paths route key) as E.
    assert (methodEntry (makeAllPathsMap paths) route key = Some v) as Hv'
      by (apply methodEntry_Some; by exists methods).
    rewrite Hv' in E. symmetry in E. apply fmap_Some in E as (p & Hp & _).
    apply lastRoute_Some in Hp as (? & ? & ?). by exists p.
  - intros Hascii. rewrite (ToLower_ascii _ Hascii). split; [done|].
    apply lowerASCII_no_upper.
Qed.

End Builders.

(** * Properties of the emission driver *)

Section Driver.
Context `{C : Collaborators}.

Ltac run_io :=
  unfold BuildDocs, marshalToYAML, createYAMLOutFile, writeAndFlush,
    callInit, callMarshal, callCreate, callWrite, callFlush, callClose,
    onWorld, logged, mbind, mret, IO_bind, IO_ret;
  simpl.

Ltac nodup_callees :=
  simpl; repeat (apply NoDup_cons_2; [set_solver|]); apply NoDup_nil_2.

Lemma released_init_marshal (r1 r2 : option Err) (cs : list call) :
  released cs → released (CallInit r1 :: CallMarshal r2 :: cs).
Proof.
  intros Hcs.
  apply released_skip; [by intros f [] | by intros p f |].
  by apply released_skip; [by intros f [] | by intros p f |].
Qed.

(** A log that creates a handle and stops after writing is not
    [released]. *)
Lemma released_needs_close (p : string) (f : File) (d : list byte) :
  ¬ released [CallCreate p (inl f); CallWrite f d None].
Proof.
  intros H. inversion H as [|c cs Hu Hc Hr|p' f' ops Hops [Hp Hf Happ]].
  - by apply (Hc p f).
  - destruct ops as [|c1 [|c2 ops]]; simpl in Happ; discriminate.
Qed.

(** The output stage, by the results of the file-system calls. *)
Lemma createYAMLOutFile_run (outPath : string) (yml : list byte) (st : state) :
  ∃ (res : option error) (w : World) (log : list call),
    createYAMLOutFile outPath yml st = (res, {| world := w; calls := calls st ++ log |})
    ∧ released log
    ∧ NoDup (callee <$> log)
    ∧ (∃ r, head log = Some (CallCreate outPath r))
    ∧ (∀ p r, CallCreate p r ∈ log → p = outPath)
    ∧ match res with
      | None =>
          ∃ f, log = [CallCreate outPath (inl f); CallWrite f yml None;
                      CallFlush f None; CallClose f]
      | Some e =>
          (∃ e0, e = Errorf "failed creating yaml output file" (External e0)
                 ∧ log = [CallCreate outPath (inr e0)])
          ∨ (∃ f e0, e = Errorf "writing issue occurred"
                           (Errorf "failed writing to YAML output file" (External e0))
                     ∧ log = [CallCreate outPath (inl f); CallWrite f yml (Some e0);
                              CallClose f])
          ∨ (∃ f e0, e = Errorf "writing issue occurred"
                           (Errorf "failed flushing output writer" (External e0))
                     ∧ log = [CallCreate outPath (inl f); CallWrite f yml None;
                              CallFlush f (Some e0); CallClose f])
      end.
Proof.
  run_io.
  destruct (os_Create outPath (world st)) as [[f|e] w1] eqn:Hc; simpl.
  - destruct (Writer_Write f yml w1) as [[e|] w2] eqn:Hw; simpl.
    + destruct (File_Close f w2) as [? w3] eqn:Hcl; simpl.
      eexists _, _, [_; _; _]. rewrite -!app_assoc /=. split; [done|].
      split_and!.
      * by apply (released_session _ _ [_]); repeat constructor.
      * nodup_callees.
      * by eexists.
      * intros p r Hin. set_solver.
      * right; left. by exists f, e.
    + destruct (Writer_Flush f w2) as [[e|] w3] eqn:Hf; simpl;
        destruct (File_Close f w3) as [? w4] eqn:Hcl; simpl.
      * eexists _, _, [_; _; _; _]. rewrite -!app_assoc /=. split; [done|].
        split_and!.
        -- by apply (released_session _ _ [_; _]); repeat constructor.
        -- nodup_callees.
        -- by eexists.
        -- intros p r Hin. set_solver.
        -- right; right. by exists f, e.
      * eexists _, _, [_; _; _; _]. rewrite -!app_assoc /=. split; [done|].
        split_and!.
        -- by apply (released_session _ _ [_; _]); repeat constructor.
        -- nodup_callees.
        -- by eexists.
        -- intros p r Hin. set_solver.
        -- by exists f.
  - eexists _, _, [_]. split; [done|]. split_and!.
    + apply released_skip; [by intros f [] | by intros p f | constructor].
    + nodup_callees.
    + by eexists.
    + intros p r Hin. set_solver.
    + left. by exists e.
Qed.

(** [BuildDocs] stage by stage. *)
Lemma BuildDocs_unfold (o : OAS) (conf : list ConfigBuilder) (st : state) :
  let init := initCallStackForRoutes o in
  let yml := yaml_Marshal (transformToHybridOAS init.2) in
  let st1 := {| world := world st;
                calls := calls st ++ [CallInit init.1; CallMarshal yml.2] |} in
  let out := createYAMLOutFile (getPathFromFirstElement conf) yml.1 st1 in
  BuildDocs o conf st =
    match init.1 with
    | Some e =>
        (Some (Errorf "failed initiating call stack for registered routes" (External e)),
         {| world := world st; calls := calls st ++ [CallInit init.1] |})
    | None =>
        match yml.2 with
        | Some e =>
            (Some (Errorf "marshaling issue occurred"
                          (Errorf "failed marshaling to yaml" (External e))), st1)
        | None =>
            (match out.1 with
             | Some e => Some (Errorf "an issue occurred while saving to YAML output" e)
             | None => None
             end, out.2)
        end
    end.
Proof.
  intros init yml st1 out. subst init yml st1 out.
  unfold BuildDocs, marshalToYAML, callInit, callMarshal, logged,
    mbind, mret, IO_bind, IO_ret.
  destruct (initCallStackForRoutes o) as [[e|] o1]; cbn [fst snd]; [done|].
  destruct (yaml_Marshal (transformToHybridOAS o1)) as [yml [e|]]; cbn [fst snd].
  - by rewrite -app_assoc.
  - cbn [world calls]. rewrite -app_assoc. cbn [app].
    by destruct (createYAMLOutFile _ _ _) as [[e|] st2].
Qed.

(** The calls [BuildDocs] adds to the log. *)
Lemma BuildDocs_run (o : OAS) (conf : list ConfigBuilder) (st : state) :
  let init := initCallStackForRoutes o in
  let yml := yaml_Marshal (transformToHybridOAS init.2) in
  ∃ log : list call,
    calls (BuildDocs o conf st).2 = calls st ++ log
    ∧ NoDup (callee <$> log)
    ∧ released log
    ∧ (∀ p r, CallCreate p r ∈ log → p = getPathFromFirstElement conf)
    ∧ (init.1 = None → yml.2 = None →
       ∃ r, CallCreate (getPathFromFirstElement conf) r ∈ log).
Proof.
  intros init yml. rewrite BuildDocs_unfold. fold init yml.
  destruct (init.1) as [e|] eqn:Hinit.
  { exists [CallInit (Some e)]. split_and!; [done| nodup_callees | | |done].
    - apply released_skip; [by intros f [] | by intros p f | constructor].
    - intros p r Hin. set_solver. }
  destruct (yml.2) as [e|] eqn:Hyml.
  { exists [CallInit None; CallMarshal (Some e)].
    split_and!; [done| nodup_callees | | |done].
    - apply released_init_marshal. constructor.
    - intros p r Hin. set_solver. }
  destruct (createYAMLOutFile_run (getPathFromFirstElement conf) yml.1
              {| world := world st;
                 calls := calls st ++ [CallInit None; CallMarshal None] |})
    as (res & w & log & Hrun & Hrel & Hnd & [r Hhd] & Hpath & Hshape).
  rewrite Hrun. cbn [snd calls].
  exists (CallInit None :: CallMarshal None :: log).
  split_and!.
  - by rewrite -app_assoc.
  - rewrite !fmap_cons. cbn [callee].
    apply NoDup_cons_2; [|apply NoDup_cons_2; [|done]].
    + destruct res as [e|];
        [destruct Hshape as [(? & _ & ->)|[(? & ? & _ & ->)|(? & ? & _ & ->)]]
        |destruct Hshape as (? & ->)]; set_solver.
    + destruct res as [e|];
        [destruct Hshape as [(? & _ & ->)|[(? & ? & _ & ->)|(? & ? & _ & ->)]]
        |destruct Hshape as (? & ->)]; set_solver.
  - by apply released_init_marshal.
  - intros p r' Hin.
    apply elem_of_cons in Hin as [?|Hin]; [done|].
    apply elem_of_cons in Hin as [?|Hin]; [done|].
    by apply (Hpath p r').
  - intros _ _. exists r. do 2 apply list_elem_of_further.
    destruct log; [done|]. injection Hhd as ->. apply list_elem_of_here.
Qed.

(** The output stage by the results of the file-system calls: what it
    returns, the state in which it leaves the file system, and its calls. *)
Lemma createYAMLOutFile_exact (outPath : string) (yml : list byte) (st : state) :
  let created := os_Create outPath (world st) in
  createYAMLOutFile outPath yml st =
    match created.1 with
    | inr e =>
        (Some (Errorf "failed creating yaml output file" (External e)),
         {| world := created.2;
            calls := calls st ++ [CallCreate outPath (inr e)] |})
    | inl f =>
        let written := Writer_Write f yml created.2 in
        match written.1 with
        | Some e =>
            (Some (Errorf "writing issue occurred"
                     (Errorf "failed writing to YAML output file" (External e))),
             {| world := (File_Close f written.2).2;
                calls := calls st ++ [CallCreate outPath (inl f);
                                      CallWrite f yml (Some e); CallClose f] |})
        | None =>
            let flushed := Writer_Flush f written.2 in
            (match flushed.1 with
             | Some e =>
                 Some (Errorf "writing issue occurred"
                         (Errorf "failed flushing output writer" (External e)))
             | None => None
             end,
             {| world := (File_Close f flushed.2).2;
                calls := calls st ++ [CallCreate outPath (inl f);
                                      CallWrite f yml None;
                                      CallFlush f flushed.1; CallClose f] |})
        end
    end.
Proof.
  run_io.
  destruct (os_Create outPath (world st)) as [[f|e] w1]; simpl; [|done].
  destruct (Writer_Write f yml w1) as [[e|] w2]; simpl.
  - destruct (File_Close f w2) as [? w3]; simpl. by rewrite -!app_assoc.
  - destruct (Writer_Flush f w2) as [[e|] w3]; simpl;
      destruct (File_Close f w3) as [? w4]; simpl; by rewrite -!app_assoc.
Qed.

(** C8: [BuildDocs] returns [nil] exactly when validation and the encoder
    return no error and [os.Create], the writer's [Write] and its [Flush]
    all succeed. When a stage fails, the result is the collaborator's own
    error wrapped by [Errorf] under the message of that stage. Validation
    and encoder failures leave the file system as it was; after a failed
    [Create] nothing else touches it; once [Create] has returned a handle,
    the file system ends in the state [File.Close] leaves it in, after a
    failed [Write], a failed [Flush] and on success alike (the result of
    [Close] is dropped). No collaborator is called twice, and a handle that
    was created is closed by the last call. *)
Theorem BuildDocs_stages (o : OAS) (conf : list ConfigBuilder) (st : state) :
  let init := initCallStackForRoutes o in
  let yml := yaml_Marshal (transformToHybridOAS init.2) in
  let outPath := getPathFromFirstElement conf in
  let created := os_Create outPath (world st) in
  let written := λ f, Writer_Write f yml.1 created.2 in
  let flushed := λ f, Writer_Flush f (written f).2 in
  let res := BuildDocs o conf st in
  (res.1 = None ↔
     init.1 = None ∧ yml.2 = None
     ∧ ∃ f, created.1 = inl f ∧ (written f).1 = None ∧ (flushed f).1 = None)
  ∧ (∀ e, init.1 = Some e →
       res = (Some (Errorf "failed initiating call stack for registered routes"
                      (External e)),
              {| world := world st; calls := calls st ++ [CallInit (Some e)] |}))
  ∧ (∀ e, init.1 = None → yml.2 = Some e →
       res = (Some (Errorf "marshaling issue occurred"
                      (Errorf "failed marshaling to yaml" (External e))),
              {| world := world st;
                 calls := calls st ++ [CallInit None; CallMarshal (Some e)] |}))
  ∧ (∀ e, init.1 = None → yml.2 = None → created.1 = inr e →
       res = (Some (Errorf "an issue occurred while saving to YAML output"
                      (Errorf "failed creating yaml output file" (External e))),
              {| world := created.2;
                 calls := calls st ++ [CallInit None; CallMarshal None;
                                       CallCreate outPath (inr e)] |}))
  ∧ (∀ f e, init.1 = None → yml.2 = None → created.1 = inl f →
       (written f).1 = Some e →
       res = (Some (Errorf "an issue occurred while saving to YAML output"
                      (Errorf "writing issue occurred"
                         (Errorf "failed writing to YAML output file" (External e)))),
              {| world := (File_Close f (written f).2).2;
                 calls := calls st ++ [CallInit None; CallMarshal None;
                                       CallCreate outPath (inl f);
                                       CallWrite f yml.1 (Some e); CallClose f] |}))
  ∧ (∀ f e, init.1 = None → yml.2 = None → created.1 = inl f →
       (written f).1 = None → (flushed f).1 = Some e →
       res = (Some (Errorf "an issue occurred while saving to YAML output"
                      (Errorf "writing issue occurred"
                         (Errorf "failed flushing output writer" (External e)))),
              {| world := (File_Close f (flushed f).2).2;
                 calls := calls st ++ [CallInit None; CallMarshal None;
                                       CallCreate outPath (inl f);
                                       CallWrite f yml.1 None;
                                       CallFlush f (Some e); CallClose f] |}))
  ∧ (∀ f, init.1 = None → yml.2 = None → created.1 = inl f →
       (written f).1 = None → (flushed f).1 = None →
       res = (None,
              {| world := (File_Close f (flushed f).2).2;
                 calls := calls st ++ [CallInit None; CallMarshal None;
                                       CallCreate outPath (inl f);
                                       CallWrite f yml.1 None;
                                       CallFlush f None; CallClose f] |}))
  ∧ ∃ log : list call,
      calls res.2 = calls st ++ log ∧ NoDup (callee <$> log) ∧ released log.
Proof.
  intros init yml outPath created written flushed res.
  subst written flushed. cbv beta.
  pose proof (BuildDocs_unfold o conf st) as Hres. cbv zeta in Hres.
  fold init yml outPath in Hres.
  rewrite createYAMLOutFile_exact in Hres. cbv zeta in Hres.
  cbn [world calls] in Hres. fold created res in Hres.
  split_and!.
  - rewrite Hres. destruct (init.1); [naive_solver|].
    destruct (yml.2); [naive_solver|].
    destruct (created.1) as [f|e]; [|naive_solver].
    destruct ((Writer_Write f yml.1 created.2).1) eqn:Hw; [naive_solver|].
    destruct ((Writer_Flush f (Writer_Write f yml.1 created.2).2).1) eqn:Hf;
      cbn [fst]; split; try done.
    + intros (_ & _ & f' & [= <-] & _ & Hf'). congruence.
    + intros _. split_and!; [done|done|]. by exists f.
  - intros e He. by rewrite Hres He.
  - intros e Hi He. by rewrite Hres Hi He.
  - intros e Hi Hy Hc. rewrite Hres Hi Hy Hc. cbn [fst snd].
    by rewrite -app_assoc.
  - intros f e Hi Hy Hc Hw. rewrite Hres Hi Hy Hc Hw. cbn [fst snd].
    by rewrite -app_assoc.
  - intros f e Hi Hy Hc Hw Hf. rewrite Hres Hi Hy Hc Hw Hf. cbn [fst snd].
    by rewrite -app_assoc.
  - intros f Hi Hy Hc Hw Hf. rewrite Hres Hi Hy Hc Hw Hf. cbn [fst snd].
    by rewrite -app_assoc.
  - destruct (BuildDocs_run o conf st) as (log' & ? & ? & ? & _).
    by exists log'.
Qed.

(** C10: with a non-empty configuration list the output path is the custom
    path of its first element, whatever that string is and whatever follows
    it; the default path is the path of the empty list. [BuildDocs] creates
    no file under another path, and creates that one once validation and
    serialisation have succeeded. *)
Theorem BuildDocs_output_path (o : OAS) (first : ConfigBuilder)
    (others : list ConfigBuilder) (st : state) :
  getPathFromFirstElement (first :: others) = customPath first
  ∧ getPathFromFirstElement [] = "./internal/dist/openapi.yaml"
  ∧ (∃ log : list call,
       calls (BuildDocs o (first :: others) st).2 = calls st ++ log
       ∧ (∀ p r, CallCreate p r ∈ log → p = customPath first)
       ∧ ((initCallStackForRoutes o).1 = None →
          (yaml_Marshal (transformToHybridOAS (initCallStackForRoutes o).2)).2 = None →
          ∃ r, CallCreate (customPath first) r ∈ log))
  ∧ (∃ log : list call,
       calls (BuildDocs o [] st).2 = calls st ++ log
       ∧ (∀ p r, CallCreate p r ∈ log → p = "./internal/dist/openapi.yaml")
       ∧ ((initCallStackForRoutes o).1 = None →
          (yaml_Marshal (transformToHybridOAS (initCallStackForRoutes o).2)).2 = None →
          ∃ r, CallCreate "./internal/dist/openapi.yaml" r ∈ log)).
Proof.
  split_and!; [done|done| |].
  - destruct (BuildDocs_run o (first :: others) st) as (log & ? & _ & _ & ? & ?).
    by exists log.
  - destruct (BuildDocs_run o [] st) as (log & ? & _ & _ & ? & ?).
    by exists log.
Qed.

End Driver.

(** * Properties of the transform over a store *)

Section StoreFrame.
Context {D : Decls}.
Variable h0 : heap.

#[local] Existing Instances Mem_ret Mem_bind.

Lemma isNew_mono (h h' : heap) (l : loc) :
  dom (cells h) ⊆ dom (cells h') → isNew h0 h l → isNew h0 h' l.
Proof.
  intros Hsub [Hold Hnew]. split; [done|].
  apply elem_of_dom, Hsub. by apply elem_of_dom.
Qed.

Lemma Forall_isNew_mono (h h' : heap) (ls : list loc) :
  dom (cells h) ⊆ dom (cells h') → Forall (isNew h0 h) ls → Forall (isNew h0 h') ls.
Proof.
  intros Hsub Hls. eapply Forall_impl; [done|].
  intros l. by apply isNew_mono.
Qed.

Lemma cellNew_mono (h h' : heap) (c : cell) :
  dom (cells h) ⊆ dom (cells h') → cellNew h0 h c → cellNew h0 h' c.
Proof.
  intros Hsub. destruct c; simpl; try done.
  - intros Hc. eapply map_Forall_impl; [done|].
    intros k v. by apply Forall_isNew_mono.
  - intros Hc. eapply map_Forall_impl; [done|].
    intros k v. by apply Forall_isNew_mono.
  - by apply Forall_isNew_mono.
Qed.

Lemma untouched_refl : untouched h0 h0.
Proof. split; [done|done|]. intros l c Hnone Hsome. congruence. Qed.

(** Overwriting a new cell with a cell that refers to new cells only. *)
Lemma untouched_setCell (h : heap) (l : loc) (c : cell) :
  untouched h0 h → cells h0 !! l = None → cellNew h0 (setCell l c h) c →
  untouched h0 (setCell l c h) ∧ dom (cells h) ⊆ dom (cells (setCell l c h)).
Proof.
  intros [Hr Hold Hnew] Hl Hc.
  assert (dom (cells h) ⊆ dom (cells (setCell l c h))) as Hsub.
  { simpl. rewrite dom_insert_L. set_solver. }
  split; [|done]. split; [done| |].
  - intros l' c' Hl'. simpl. rewrite lookup_insert_ne; [by apply Hold|].
    intros ->. congruence.
  - intros l' c' Hnone. simpl. rewrite lookup_insert.
    case_decide as Heq.
    + intros [= <-]. done.
    + intros Hc'. eapply cellNew_mono; [done|]. by eapply Hnew.
Qed.

Lemma kf_ret {A : Type} (live : list loc) (a : A) (out : A → list loc) :
  out a ⊆ live → keepsFresh h0 live (mret a) out.
Proof.
  intros Hout h Hinv Hlive. split_and!; [done|done|]. simpl.
  apply Forall_forall. intros l Hl.
  by apply (proj1 (Forall_forall _ _) Hlive), Hout.
Qed.

Lemma kf_bind {A B : Type} (live : list loc) (f : Mem A) (k : A → Mem B)
    (out1 : A → list loc) (out2 : B → list loc) :
  keepsFresh h0 live f out1 →
  (∀ a, keepsFresh h0 (out1 a ++ live) (k a) out2) →
  keepsFresh h0 live (f ≫= k) out2.
Proof.
  intros Hf Hk h Hinv Hlive.
  destruct (Hf h Hinv Hlive) as (Hinv1 & Hsub1 & Hout1).
  unfold mbind, Mem_bind. destruct (f h) as [a h1]; simpl in *.
  destruct (Hk a h1 Hinv1) as (Hinv2 & Hsub2 & Hout2).
  { apply Forall_app. split; [done|]. by eapply Forall_isNew_mono. }
  split_and!; [done| |done]. set_solver.
Qed.

Lemma kf_weaken {A : Type} (live live' : list loc) (f : Mem A) (out : A → list loc) :
  live ⊆ live' → keepsFresh h0 live f out → keepsFresh h0 live' f out.
Proof.
  intros Hsub Hf h Hinv Hlive. apply Hf; [done|].
  apply Forall_forall. intros l Hl.
  by apply (proj1 (Forall_forall _ _) Hlive), Hsub.
Qed.

Lemma kf_alloc (live : list loc) (c : cell) :
  (∀ h, cellNew h0 h c) → keepsFresh h0 live (alloc c) (λ l, [l]).
Proof.
  intros Hc h Hinv Hlive. unfold alloc. cbn [fst snd].
  set (l := fresh (dom (cells h))).
  assert (cells h !! l = None) as Hfresh
    by (apply not_elem_of_dom, is_fresh).
  assert (cells h0 !! l = None) as Hl.
  { destruct (cells h0 !! l) as [c0|] eqn:Hc0; [|done].
    apply (untouched_cells _ _ Hinv) in Hc0. congruence. }
  destruct (untouched_setCell h l c Hinv Hl (Hc _)) as [Hinv' Hsub].
  split_and!; [done|done|].
  apply Forall_singleton. split; [done|]. simpl. rewrite lookup_insert_eq. by eexists.
Qed.

Lemma kf_makeMap (live : list loc) : keepsFresh h0 live makeMap (λ l, [l]).
Proof. apply kf_alloc. intros h. apply map_Forall_empty. Qed.

Lemma kf_makeCodeMap (live : list loc) : keepsFresh h0 live makeCodeMap (λ l, [l]).
Proof. apply kf_alloc. intros h. apply map_Forall_empty. Qed.

Lemma kf_makeSecurityMaps (live : list loc) :
  keepsFresh h0 live makeSecurityMaps (λ l, [l]).
Proof. apply kf_alloc. intros h. apply Forall_nil_2. Qed.

Lemma kf_readReceiver (live : list loc) :
  keepsFresh h0 live readReceiver (λ _, []).
Proof. intros h Hinv Hlive. by split_and!. Qed.

Lemma live_isNew (h : heap) (live : list loc) (l : loc) :
  Forall (isNew h0 h) live → l ∈ live → isNew h0 h l.
Proof. intros Hlive. by apply Forall_forall. Qed.

Lemma kf_mapStore (live : list loc) (m : loc) (k : string) (v : hval) :
  m ∈ live → refsOf v ⊆ live → keepsFresh h0 live (mapStore m k v) (λ _, []).
Proof.
  intros Hm Hv h Hinv Hlive. unfold mapStore.
  destruct (cells h !! m) as [c|] eqn:Hc; [|by split_and!].
  destruct c as [kv| | | | | | | | | |]; try by split_and!.
  cbn [fst snd].
  destruct (live_isNew h live m Hlive Hm) as [Hm0 _].
  destruct (untouched_setCell h m (CMap (<[k := v]> kv)) Hinv Hm0) as [Hinv' Hsub].
  { assert (dom (cells h) ⊆ dom (cells (setCell m (CMap (<[k := v]> kv)) h))) as Hsub
      by (simpl; rewrite dom_insert_L; set_solver).
    simpl. apply map_Forall_insert_2.
    - eapply Forall_isNew_mono; [done|].
      apply Forall_forall. intros l Hl. eapply live_isNew; [done|]. by apply Hv.
    - pose proof (untouched_new _ _ Hinv m _ Hm0 Hc) as Hkv. simpl in Hkv.
      eapply map_Forall_impl; [done|]. intros k' v'. by apply Forall_isNew_mono. }
  by split_and!.
Qed.

Lemma kf_codeMapStore (live : list loc) (m : loc) (k : N) (v : hval) :
  m ∈ live → refsOf v ⊆ live → keepsFresh h0 live (codeMapStore m k v) (λ _, []).
Proof.
  intros Hm Hv h Hinv Hlive. unfold codeMapStore.
  destruct (cells h !! m) as [c|] eqn:Hc; [|by split_and!].
  destruct c as [|kv| | | | | | | | |]; try by split_and!.
  cbn [fst snd].
  destruct (live_isNew h live m Hlive Hm) as [Hm0 _].
  destruct (untouched_setCell h m (CCodeMap (<[k := v]> kv)) Hinv Hm0) as [Hinv' Hsub].
  { assert (dom (cells h) ⊆ dom (cells (setCell m (CCodeMap (<[k := v]> kv)) h))) as Hsub
      by (simpl; rewrite dom_insert_L; set_solver).
    simpl. apply map_Forall_insert_2.
    - eapply Forall_isNew_mono; [done|].
      apply Forall_forall. intros l Hl. eapply live_isNew; [done|]. by apply Hv.
    - pose proof (untouched_new _ _ Hinv m _ Hm0 Hc) as Hkv. simpl in Hkv.
      eapply map_Forall_impl; [done|]. intros k' v'. by apply Forall_isNew_mono. }
  by split_and!.
Qed.

Lemma kf_appendSecurityMap (live : list loc) (a m : loc) :
  a ∈ live → m ∈ live → keepsFresh h0 live (appendSecurityMap a m) (λ _, []).
Proof.
  intros Ha Hm h Hinv Hlive. unfold appendSecurityMap.
  destruct (cells h !! a) as [c|] eqn:Hc; [|by split_and!].
  destruct c as [| |ms| | | | | | | |]; try by split_and!.
  cbn [fst snd].
  destruct (live_isNew h live a Hlive Ha) as [Ha0 _].
  destruct (untouched_setCell h a (CSecurityMaps (ms ++ [m])) Hinv Ha0) as [Hinv' Hsub].
  { assert (dom (cells h) ⊆ dom (cells (setCell a (CSecurityMaps (ms ++ [m])) h))) as Hsub
      by (simpl; rewrite dom_insert_L; set_solver).
    simpl. apply Forall_app. split.
    - pose proof (untouched_new _ _ Hinv a _ Ha0 Hc) as Hms. simpl in Hms.
      by eapply Forall_isNew_mono.
    - apply Forall_singleton. eapply isNew_mono; [done|]. by eapply live_isNew. }
  by split_and!.
Qed.

(** A value read from a new map refers to new cells. *)
Lemma kf_mapLoad (live : list loc) (m : loc) (k : string) :
  m ∈ live →
  keepsFresh h0 live (mapLoad m k)
    (λ r, match r with Some v => refsOf v | None => [] end).
Proof.
  intros Hm h Hinv Hlive. unfold mapLoad. cbn [fst snd].
  split_and!; [done|done|].
  destruct (cells h !! m) as [c|] eqn:Hc; [|done].
  destruct c as [kv| | | | | | | | | |]; try done.
  destruct (kv !! k) as [v|] eqn:Hv; [|done].
  destruct (live_isNew h live m Hlive Hm) as [Hm0 _].
  pose proof (untouched_new _ _ Hinv m _ Hm0 Hc) as Hkv. simpl in Hkv.
  by apply (Hkv k v).
Qed.

Lemma kf_rangeFrom {A : Type} (live : list loc) (elems : heap → list A)
    (body : A → Mem unit) (i n : nat) :
  (∀ x, keepsFresh h0 live (body x) (λ _, [])) →
  keepsFresh h0 live (rangeFrom elems body i n) (λ _, []).
Proof.
  intros Hbody. revert i. induction n as [|n IH]; intros i.
  - apply kf_ret. set_solver.
  - intros h Hinv Hlive. cbn [rangeFrom].
    destruct (elems h !! i) as [x|]; [|by split_and!].
    exact (kf_bind live (body x) (λ _, rangeFrom elems body (S i) n)
             (λ _, []) (λ _, []) (Hbody x) (λ _, IH (S i)) h Hinv Hlive).
Qed.

Lemma kf_range {A : Type} (live : list loc) (elems : heap → list A)
    (body : A → Mem unit) :
  (∀ x, keepsFresh h0 live (body x) (λ _, [])) →
  keepsFresh h0 live (range elems body) (λ _, []).
Proof.
  intros Hbody h Hinv Hlive. unfold range.
  by apply (kf_rangeFrom live elems body 0 (length (elems h)) Hbody h).
Qed.

Ltac kf_leaf :=
  first
    [ apply kf_makeMap | apply kf_makeCodeMap | apply kf_makeSecurityMaps
    | apply kf_readReceiver
    | apply kf_mapStore; simpl; set_solver
    | apply kf_codeMapStore; simpl; set_solver
    | apply kf_appendSecurityMap; simpl; set_solver
    | apply kf_mapLoad; simpl; set_solver
    | apply kf_ret; simpl; set_solver ].

(** Walks a builder statement by statement; [call] proves the calls to
    other builders. *)
Ltac kf call :=
  cbv beta;
  lazymatch goal with
  | |- keepsFresh _ _ (@mbind _ _ unit _ _ _) _ =>
      eapply (kf_bind _ _ _ (λ _, []) _); [kf call | intros ?; kf call]
  | |- keepsFresh _ _ (mbind _ _) _ =>
      eapply kf_bind; [kf call | intros ?; kf call]
  | |- keepsFresh _ _ (range _ _) _ => apply kf_range; intros ?; kf call
  | |- keepsFresh _ _ (match ?x with _ => _ end) _ => destruct x; kf call
  | |- _ => first [kf_leaf | call]
  end.

Lemma kf_makeContentSchemaMapH (live : list loc) (content : loc) :
  keepsFresh h0 live (makeContentSchemaMapH content) (λ l, [l]).
Proof. unfold makeContentSchemaMapH. kf fail. Qed.

Lemma kf_makeSecurityMapH (live : list loc) (se : loc) :
  keepsFresh h0 live (makeSecurityMapH se) (λ l, [l]).
Proof. unfold makeSecurityMapH. kf fail. Qed.

Lemma kf_makeResponsesMapH (live : list loc) (responses : loc) :
  keepsFresh h0 live (makeResponsesMapH responses) (λ l, [l]).
Proof. unfold makeResponsesMapH. kf ltac:(apply kf_makeContentSchemaMapH). Qed.

Lemma kf_makeRequestBodyMapH (live : list loc) (reqBody : RequestBodyH) :
  keepsFresh h0 live (makeRequestBodyMapH reqBody) (λ l, [l]).
Proof. unfold makeRequestBodyMapH. kf ltac:(apply kf_makeContentSchemaMapH). Qed.

Lemma kf_makeAllPathsMapH (live : list loc) (paths : loc) :
  keepsFresh h0 live (makeAllPathsMapH paths) (λ l, [l]).
Proof.
  unfold makeAllPathsMapH.
  kf ltac:(first [ apply kf_makeSecurityMapH | apply kf_makeRequestBodyMapH
                 | apply kf_makeResponsesMapH ]).
Qed.

Lemma kf_makeComponentSchemasMapH (live : list loc) (schemas : loc) :
  keepsFresh h0 live (makeComponentSchemasMapH schemas) (λ l, [l]).
Proof. unfold makeComponentSchemasMapH. kf fail. Qed.

Lemma kf_makeComponentSecuritySchemesMapH (live : list loc) (secSchemes : loc) :
  keepsFresh h0 live (makeComponentSecuritySchemesMapH secSchemes) (λ l, [l]).
Proof. unfold makeComponentSecuritySchemesMapH. kf fail. Qed.

Lemma kf_makeComponentsMapH (live : list loc) (components : loc) :
  keepsFresh h0 live (makeComponentsMapH components) (λ l, [l]).
Proof.
  unfold makeComponentsMapH.
  kf ltac:(first [ apply kf_makeComponentSchemasMapH
                 | apply kf_makeComponentSecuritySchemesMapH ]).
Qed.


(** Under [untouched], the maps of a tree with a new root are new. *)
Lemma inTree_isNew (h : heap) (root m : loc) :
  untouched h0 h → isNew h0 h root → inTree h root m → isNew h0 h m.
Proof.
  intros Hinv Hroot. induction 1 as [|m m' _ IH Hchild]; [done|].
  destruct IH as [Hm0 [c Hc]].
  pose proof (untouched_new _ _ Hinv m c Hm0 Hc) as Hnew.
  assert (∀ v, Forall (isNew h0 h) (refsOf v) → m' ∈ mapsOf h v → isNew h0 h m')
    as Hval.
  { intros v Hv Hin. destruct v; simpl in *; try by apply elem_of_nil in Hin.
    - apply Forall_singleton in Hv as [Ha0 [c' Hc']].
      rewrite Hc' in Hin.
      pose proof (untouched_new _ _ Hinv a c' Ha0 Hc') as Hnew'.
      destruct c'; try by apply elem_of_nil in Hin.
      simpl in Hnew'. by apply (proj1 (Forall_forall _ _) Hnew').
    - apply list_elem_of_singleton in Hin as ->. by rewrite Forall_singleton in Hv.
    - apply list_elem_of_singleton in Hin as ->. by rewrite Forall_singleton in Hv. }
  unfold mapChild in Hchild. rewrite Hc in Hchild.
  destruct c as [kv|kv| | | | | | | | |]; try done.
  - destruct Hchild as (k & v & Hkv & Hin). apply (Hval v); [|done].
    by apply (Hnew k v).
  - destruct Hchild as (k & v & Hkv & Hin). apply (Hval v); [|done].
    by apply (Hnew k v).
Qed.

End StoreFrame.

Section StoreTheorem.
Context {D : Decls}.






End StoreTheorem.

(** * The document of an empty description *)

Section EmptyDocument.
Context {D : Decls}.

Lemma range_nil {A : Type} (elems : heap → list A) (body : A → Mem unit) (h : heap) :
  elems h = [] → range elems body h = (tt, h).
Proof. intros He. unfold range. by rewrite He. Qed.

Lemma pathsAt_setCell_CMap (a l : loc) (kv : gmap string hval) (h : heap) :
  pathsAt a h = [] → pathsAt a (setCell l (CMap kv) h) = [].
Proof.
  unfold pathsAt, setCell. simpl. rewrite lookup_insert.
  by case_decide.
Qed.

Lemma componentsAt_setCell_CMap (a l : loc) (kv : gmap string hval) (h : heap) :
  componentsAt a h = [] → componentsAt a (setCell l (CMap kv) h) = [].
Proof.
  unfold componentsAt, setCell. simpl. rewrite lookup_insert.
  by case_decide.
Qed.

Lemma makeAllPathsMapH_nil (paths : loc) (h : heap) :
  pathsAt paths h = [] →
  makeAllPathsMapH paths h =
    (fresh (dom (cells h)), setCell (fresh (dom (cells h))) (CMap ∅) h).
Proof.
  intros He. unfold makeAllPathsMapH, makeMap, alloc, mbind, Mem_bind, mret, Mem_ret.
  by rewrite range_nil; [|apply pathsAt_setCell_CMap].
Qed.

Lemma makeComponentsMapH_nil (components : loc) (h : heap) :
  componentsAt components h = [] →
  makeComponentsMapH components h =
    (fresh (dom (cells h)), setCell (fresh (dom (cells h))) (CMap ∅) h).
Proof.
  intros He. unfold makeComponentsMapH, makeMap, alloc, mbind, Mem_bind, mret, Mem_ret.
  by rewrite range_nil; [|apply componentsAt_setCell_CMap].
Qed.

(** C7: with no route and no component the document still lists its seven
    top-level keys, as it does for every input, and ["paths"] and
    ["components"] hold empty maps; over a store, both fields refer to
    cells that [make] allocated (they are not nil) and that hold a map
    without entries. *)
Theorem transformToHybridOAS_empty (v : OASVersion) (i : Info) (e : ExternalDocs)
    (s : Servers) (t : Tags) (h : heap) :
  pathsAt (OASH_Paths (receiver h)) h = [] →
  componentsAt (OASH_Components (receiver h)) h = [] →
  hybridOAS_fields (transformToHybridOAS {|
      OAS_OASVersion := v; OAS_Info := i; OAS_ExternalDocs := e;
      OAS_Servers := s; OAS_Tags := t; OAS_Paths := []; OAS_Components := [] |})
    = [ ("openapi", FOpenAPI v); ("info", FInfo i); ("externalDocs", FExternalDocs e);
        ("servers", FServers s); ("tags", FTags t);
        ("paths", FPaths ∅); ("components", FComponents ∅) ]
  ∧ (∀ o : OAS, (hybridOAS_fields (transformToHybridOAS o)).*1
       = ["openapi"; "info"; "externalDocs"; "servers"; "tags"; "paths"; "components"])
  ∧ cells (transformToHybridOASH h).2 !! PathsH (transformToHybridOASH h).1
      = Some (CMap ∅)
  ∧ cells (transformToHybridOASH h).2 !! ComponentsH (transformToHybridOASH h).1
      = Some (CMap ∅)
  ∧ PathsH (transformToHybridOASH h).1 ≠ ComponentsH (transformToHybridOASH h).1.
Proof.
  intros Hpaths Hcomponents.
  split; [done|]. split; [done|].
  unfold transformToHybridOASH, readReceiver, mbind, Mem_bind, mret, Mem_ret.
  rewrite makeAllPathsMapH_nil; [|done].
  set (l1 := fresh (dom (cells h))).
  rewrite makeComponentsMapH_nil; [|by apply componentsAt_setCell_CMap].
  set (l2 := fresh (dom (cells (setCell l1 (CMap ∅) h)))).
  cbn [fst snd PathsH ComponentsH].
  assert (l2 ≠ l1) as Hne.
  { intros Heq. apply (is_fresh (dom (cells (setCell l1 (CMap ∅) h)))).
    fold l2. rewrite Heq. simpl. rewrite dom_insert_L. set_solver. }
  split_and!.
  - simpl. rewrite lookup_insert_ne; [|done]. by rewrite lookup_insert_eq.
  - simpl. by rewrite lookup_insert_eq.
  - done.
Qed.

End EmptyDocument.

(** * Further properties of the builders *)

Section MoreBuilders.
Context {D : Decls}.

(** The keys of a map filled by a loop of stores are the keys stored. *)
Lemma fold_insert_dom `{Countable K} {A V : Type}
    (key : A → K) (val : A → V) (l : list A) :
  dom (fold_left (λ m a, <[key a := val a]> m) l (∅ : gmap K V))
    = list_to_set (key <$> l).
Proof.
  apply set_eq; intros k.
  rewrite elem_of_dom fold_insert_lookup_empty fmap_is_Some elem_of_list_to_set
    list_elem_of_fmap.
  split.
  - intros [a Ha%last_Some_elem_of]. apply list_elem_of_filter in Ha as [<- ?].
    by exists a.
  - intros (a & -> & Hin).
    destruct (last (filter (λ a', key a' = key a) l)) as [b|] eqn:Hlast;
      [by eexists|].
    apply last_None in Hlast.
    assert (a ∈ filter (λ a', key a' = key a) l) as Hf
      by by apply list_elem_of_filter.
    rewrite Hlast in Hf. by apply elem_of_nil in Hf.
Qed.

Lemma size_list_to_set_remove_dups `{Countable K} (l : list K) :
  size (list_to_set l : gset K) = length (remove_dups l).
Proof.
  rewrite -(size_list_to_set (C:=gset K) (remove_dups l));
    [|apply NoDup_remove_dups].
  f_equal. apply set_eq; intros k.
  by rewrite !elem_of_list_to_set elem_of_remove_dups.
Qed.

Lemma remove_dups_length_le `{EqDecision K} (l : list K) :
  (length (remove_dups l) ≤ length l)%nat.
Proof. induction l as [|x l IH]; simpl; [done|]. case_decide; simpl; lia. Qed.

(** A list keeps its length under [remove_dups] exactly when it has no
    duplicates. *)
Lemma remove_dups_length_NoDup `{EqDecision K} (l : list K) :
  NoDup l ↔ length (remove_dups l) = length l.
Proof.
  induction l as [|x l IH]; simpl.
  - split; [done|]. intros _. apply NoDup_nil_2.
  - rewrite NoDup_cons. pose proof (remove_dups_length_le l).
    case_decide; simpl; [split; [by intros [? _]|lia]|].
    rewrite IH. split; [intros [_ ?]; lia|]. intros ?. split; [done|lia].
Qed.

(** *** Security requirements *)

Lemma fold_makeSecurityMap (se : list SecurityEntity)
    (acc : list (gmap string (list string))) :
  fold_left (λ securityMaps sec,
               securityMaps
               ++ [<[SecurityEntity_AuthName sec := SecurityEntity_PermTypes sec]> ∅])
            se acc
  = acc ++ ((λ sec, <[SecurityEntity_AuthName sec := SecurityEntity_PermTypes sec]> ∅)
            <$> se).
Proof.
  revert acc. induction se as [|sec se IH]; intros acc; simpl.
  - by rewrite app_nil_r.
  - by rewrite IH -app_assoc.
Qed.

(** X1: [makeSecurityMap] yields one single-entry map per security
    requirement, in the order of the input; requirements with the same
    scheme name are kept side by side, never merged or dropped. *)
Theorem makeSecurityMap_in_order (se : list SecurityEntity) :
  makeSecurityMap se
    = (λ sec, <[SecurityEntity_AuthName sec := SecurityEntity_PermTypes sec]> ∅) <$> se
  ∧ length (makeSecurityMap se) = length se
  ∧ ∀ i sec, se !! i = Some sec →
      ∃ m : gmap string (list string),
        makeSecurityMap se !! i = Some m
        ∧ m !! SecurityEntity_AuthName sec = Some (SecurityEntity_PermTypes sec)
        ∧ size m = 1.
Proof.
  assert (makeSecurityMap se
    = (λ sec, <[SecurityEntity_AuthName sec := SecurityEntity_PermTypes sec]> ∅) <$> se)
    as Heq by (unfold makeSecurityMap; by rewrite fold_makeSecurityMap).
  split_and!; [done| |].
  - by rewrite Heq length_fmap.
  - intros i sec Hi. eexists. rewrite Heq list_lookup_fmap Hi /=.
    split_and!; [done| |].
    + by rewrite lookup_insert_eq.
    + by rewrite map_size_insert_None.
Qed.

(** *** Content entries *)

(** X2: [makeContentSchemaMap] has one key per distinct media-type name;
    under a name sits [{"schema": {"$ref": ref}}] with the reference of the
    last entry of that name, and the empty list gives the empty map. *)
Theorem makeContentSchemaMap_last_wins (content : list ContentType) (name : string) :
  makeContentSchemaMap content !! name
    = (λ ct, VSchemaRef (<["schema" := <[keyRef := ContentType_Schema ct]> ∅]> ∅))
      <$> last (filter (λ ct, ContentType_Name ct = name) content)
  ∧ dom (makeContentSchemaMap content) = list_to_set (ContentType_Name <$> content)
  ∧ size (makeContentSchemaMap content)
      = length (remove_dups (ContentType_Name <$> content))
  ∧ makeContentSchemaMap [] = ∅.
Proof.
  unfold makeContentSchemaMap. split_and!.
  - by rewrite (fold_insert_lookup_empty ContentType_Name contentSchemaEntry).
  - by rewrite (fold_insert_dom ContentType_Name contentSchemaEntry).
  - rewrite -(size_dom (D:=gset string)).
    rewrite (fold_insert_dom ContentType_Name contentSchemaEntry).
    apply size_list_to_set_remove_dups.
  - done.
Qed.

(** *** Responses *)

(** X3: the status codes of the responses are the keys of the responses
    map, so it has as many entries as there are distinct codes: responses
    that repeat a code are lost, all but the last. *)
Theorem makeResponsesMap_codes (responses : list Response) :
  dom (makeResponsesMap responses) = list_to_set (Response_Code <$> responses)
  ∧ size (makeResponsesMap responses)
      = length (remove_dups (Response_Code <$> responses))
  ∧ (NoDup (Response_Code <$> responses) ↔
     size (makeResponsesMap responses) = length responses).
Proof.
  assert (dom (makeResponsesMap responses)
          = list_to_set (Response_Code <$> responses)) as Hdom.
  { unfold makeResponsesMap.
    by rewrite (fold_insert_dom Response_Code (λ resp, VMap (codeBodyMap resp))). }
  assert (size (makeResponsesMap responses)
          = length (remove_dups (Response_Code <$> responses))) as Hsize.
  { rewrite -(size_dom (D:=gset N)) Hdom. apply size_list_to_set_remove_dups. }
  split_and!; [done|done|].
  rewrite Hsize -(length_fmap Response_Code responses).
  apply remove_dups_length_NoDup.
Qed.

(** *** Component schemas and security schemes *)

(** X4: [makeComponentSchemasMap] is keyed by schema name: under a name
    sits the map of the last schema of that name, and the keys are the
    names of the schemas of the list. *)
Theorem makeComponentSchemasMap_last_wins (schemas : list Schema) (name : string) :
  makeComponentSchemasMap schemas !! name
    = (λ s, VMap (schemaMap s)) <$> last (filter (λ s, Schema_Name s = name) schemas)
  ∧ dom (makeComponentSchemasMap schemas) = list_to_set (Schema_Name <$> schemas)
  ∧ size (makeComponentSchemasMap schemas)
      = length (remove_dups (Schema_Name <$> schemas)).
Proof.
  split_and!.
  - apply makeComponentSchemasMap_lookup.
  - unfold makeComponentSchemasMap.
    by rewrite (fold_insert_dom Schema_Name (λ s, VMap (schemaMap s))).
  - rewrite -(size_dom (D:=gset string)). unfold makeComponentSchemasMap.
    rewrite (fold_insert_dom Schema_Name (λ s, VMap (schemaMap s))).
    apply size_list_to_set_remove_dups.
Qed.

(** X5: [makeComponentSecuritySchemesMap] is keyed by scheme name: under a
    name sits the map of the last scheme of that name, whose ["name"] entry
    is that key, and the keys are the names of the schemes of the list. *)
Theorem makeComponentSecuritySchemesMap_last_wins
    (secSchemes : list SecurityScheme) (name : string) :
  makeComponentSecuritySchemesMap secSchemes !! name
    = (λ ss, VMap (securitySchemeMap ss))
      <$> last (filter (λ ss, SecurityScheme_Name ss = name) secSchemes)
  ∧ dom (makeComponentSecuritySchemesMap secSchemes)
      = list_to_set (SecurityScheme_Name <$> secSchemes)
  ∧ (∀ m : gmap string value,
       makeComponentSecuritySchemesMap secSchemes !! name = Some (VMap m) →
       m !! keyName = Some (VString name)).
Proof.
  split_and!.
  - apply makeComponentSecuritySchemesMap_lookup.
  - unfold makeComponentSecuritySchemesMap.
    by rewrite (fold_insert_dom SecurityScheme_Name (λ ss, VMap (securitySchemeMap ss))).
  - intros m. rewrite makeComponentSecuritySchemesMap_lookup.
    intros (ss & Hlast & Hm)%fmap_Some.
    apply VMap_inj in Hm as ->.
    apply last_Some_elem_of, list_elem_of_filter in Hlast as [<- _].
    unfold securitySchemeMap. by case_decide.
Qed.

(** *** Components *)

(** X6: without a Components entry the components map has no key at all,
    not even ["schemas"]; with at least one entry it has exactly the keys
    ["schemas"] and ["securitySchemes"]. *)
Theorem makeComponentsMap_keys (components : list Component) :
  dom (makeComponentsMap components)
    = (if components is [] then ∅ else {[keySchemas; keySecuritySchemes]} : gset string)
  ∧ (components = [] → makeComponentsMap components = ∅).
Proof.
  split; [|by intros ->].
  destruct components as [|c components]; [done|].
  unfold makeComponentsMap. simpl fold_left.
  change (addComponent ∅ c) with (addComponent (∅ : gmap string value) c).
  rewrite fold_addComponent_last. unfold addComponent.
  rewrite !dom_insert_L dom_empty_L. set_solver.
Qed.

(** *** Paths *)

Lemma lastRoute_is_Some_iff (paths : list Path) (route method : string) :
  is_Some (lastRoute paths route method) ↔
  ∃ path, path ∈ paths ∧ Path_Route path = route
          ∧ ToLower (Path_HTTPMethod path) = method.
Proof.
  split.
  - intros [path Hp]. exists path. by apply lastRoute_Some.
  - intros (path & Hin & <- & <-). by apply lastRoute_is_Some.
Qed.

Lemma methodEntry_lookup (allPaths : gmap string (gmap string value))
    (route method : string) (methods : gmap string value) :
  allPaths !! route = Some methods →
  methods !! method = methodEntry allPaths route method.
Proof. intros Hm. unfold methodEntry. by rewrite Hm. Qed.

(** Two paths maps with the same path keys and the same entries are
    equal. *)
Lemma pathsMap_eq (m1 m2 : gmap string (gmap string value)) :
  dom m1 = dom m2 →
  (∀ route method, methodEntry m1 route method = methodEntry m2 route method) →
  m1 = m2.
Proof.
  intros Hdom Hentry. apply map_eq; intros route.
  destruct (m1 !! route) as [methods1|] eqn:H1;
    destruct (m2 !! route) as [methods2|] eqn:H2.
  - f_equal. apply map_eq; intros method.
    by rewrite (methodEntry_lookup _ _ _ _ H1) (methodEntry_lookup _ _ _ _ H2).
  - apply (elem_of_dom_2 (D:=gset string)) in H1. apply not_elem_of_dom in H2.
    by rewrite Hdom in H1.
  - apply (elem_of_dom_2 (D:=gset string)) in H2. apply not_elem_of_dom in H1.
    by rewrite Hdom in H1.
  - done.
Qed.

(** X7: under a path key the method keys are the lowered methods of the
    routes of that path, nothing else, and there is at least one: no path
    key holds an empty method map. *)
Theorem makeAllPathsMap_method_keys (paths : list Path) (route : string)
    (methods : gmap string value) :
  makeAllPathsMap paths !! route = Some methods →
  dom methods
    = list_to_set ((λ path, ToLower (Path_HTTPMethod path))
                   <$> filter (λ path, Path_Route path = route) paths)
  ∧ methods ≠ ∅
  ∧ ∀ key v, methods !! key = Some v →
      ∃ path, path ∈ paths ∧ Path_Route path = route
              ∧ ToLower (Path_HTTPMethod path) = key ∧ v = VMap (pathMap path).
Proof.
  intros Hm.
  assert (dom methods
    = list_to_set ((λ path, ToLower (Path_HTTPMethod path))
                   <$> filter (λ path, Path_Route path = route) paths)) as Hdom.
  { apply set_eq; intros key.
    rewrite elem_of_dom (methodEntry_lookup _ _ _ _ Hm) makeAllPathsMap_entry
      fmap_is_Some lastRoute_is_Some_iff elem_of_list_to_set list_elem_of_fmap.
    split.
    - intros (path & Hin & Hr & Hk). exists path. split; [done|].
      by apply list_elem_of_filter.
    - intros (path & -> & [Hr Hin]%list_elem_of_filter). by exists path. }
  split_and!; [done| |].
  - intros ->. rewrite dom_empty_L in Hdom.
    assert (route ∈ dom (makeAllPathsMap paths)) as Hin
      by (apply elem_of_dom; eauto).
    rewrite makeAllPathsMap_dom elem_of_list_to_set list_elem_of_fmap in Hin.
    destruct Hin as (path & -> & Hin).
    assert (ToLower (Path_HTTPMethod path) ∈ (∅ : gset string)) as Habs.
    { rewrite Hdom elem_of_list_to_set list_elem_of_fmap. exists path.
      split; [done|]. by apply list_elem_of_filter. }
    by apply not_elem_of_empty in Habs.
  - intros key v Hv.
    rewrite (methodEntry_lookup _ _ _ _ Hm) makeAllPathsMap_entry in Hv.
    apply fmap_Some in Hv as (path & Hlast & ->).
    apply lastRoute_Some in Hlast as (? & ? & ?). by exists path.
Qed.

(** X8: what sits under a path key depends on the routes of that path
    only: it is what the routes of that path alone would give. *)
Theorem makeAllPathsMap_path_local (paths : list Path) (route : string) :
  makeAllPathsMap paths !! route
    = makeAllPathsMap (filter (λ path, Path_Route path = route) paths) !! route.
Proof.
  set (own := filter (λ path, Path_Route path = route) paths).
  assert (∀ method, lastRoute own route method = lastRoute paths route method)
    as Hlast.
  { intros method. unfold lastRoute, own. f_equal.
    rewrite list_filter_filter. apply list_filter_iff. intros path. tauto. }
  assert (route ∈ dom (makeAllPathsMap paths)
          ↔ route ∈ dom (makeAllPathsMap own)) as Hdom.
  { rewrite !makeAllPathsMap_dom !elem_of_list_to_set !list_elem_of_fmap.
    unfold own. split.
    - intros (path & -> & Hin). exists path. split; [done|].
      by apply list_elem_of_filter.
    - intros (path & -> & [_ Hin]%list_elem_of_filter). by exists path. }
  destruct (makeAllPathsMap paths !! route) as [m1|] eqn:H1;
    destruct (makeAllPathsMap own !! route) as [m2|] eqn:H2.
  - f_equal. apply map_eq; intros method.
    rewrite (methodEntry_lookup _ _ _ _ H1) (methodEntry_lookup _ _ _ _ H2).
    by rewrite !makeAllPathsMap_entry Hlast.
  - apply (elem_of_dom_2 (D:=gset string)) in H1. apply not_elem_of_dom in H2.
    by apply Hdom in H1.
  - apply (elem_of_dom_2 (D:=gset string)) in H2. apply not_elem_of_dom in H1.
    by apply Hdom in H2.
  - done.
Qed.

(** X9: building from [earlier ++ later] is building from [earlier] and
    then letting [later] add and replace: an entry is the one [later] gives
    where it gives one, and the one [earlier] gives otherwise. *)
Theorem makeAllPathsMap_app (earlier later : list Path) (route method : string) :
  methodEntry (makeAllPathsMap (earlier ++ later)) route method
    = match methodEntry (makeAllPathsMap later) route method with
      | Some v => Some v
      | None => methodEntry (makeAllPathsMap earlier) route method
      end
  ∧ dom (makeAllPathsMap (earlier ++ later))
      = dom (makeAllPathsMap earlier) ∪ dom (makeAllPathsMap later).
Proof.
  split.
  - rewrite !makeAllPathsMap_entry. unfold lastRoute.
    rewrite filter_app last_app. by destruct (last (filter _ later)).
  - by rewrite !makeAllPathsMap_dom fmap_app list_to_set_app_L.
Qed.

Lemma filter_at_most_one {A K : Type} `{EqDecision K} (f : A → K) (P : A → Prop)
    `{∀ x, Decision (P x)} (k : K) (l : list A) :
  NoDup (f <$> l) → (∀ x, P x → f x = k) → (length (filter P l) ≤ 1)%nat.
Proof.
  intros Hnd HP. induction l as [|a l IH]; [simpl; lia|].
  rewrite fmap_cons in Hnd. apply NoDup_cons in Hnd as [Ha Hnd].
  rewrite filter_cons. destruct (decide (P a)) as [HPa|]; [|by apply IH].
  assert (filter P l = []) as ->; [|simpl; lia].
  destruct (filter P l) as [|b bs] eqn:Hf; [done|].
  assert (b ∈ filter P l) as Hb by (rewrite Hf; apply list_elem_of_here).
  apply list_elem_of_filter in Hb as [HPb Hb].
  exfalso. apply Ha. apply list_elem_of_fmap. exists b.
  split; [|done]. by rewrite (HP a HPa) (HP b HPb).
Qed.

(** X10: when no two routes of the list have the same path and lowered
    method, the order of the routes does not matter: every reordering of
    the list gives the same paths map. *)
Theorem makeAllPathsMap_Permutation (paths paths' : list Path) :
  NoDup ((λ path, (Path_Route path, ToLower (Path_HTTPMethod path))) <$> paths) →
  paths ≡ₚ paths' →
  makeAllPathsMap paths = makeAllPathsMap paths'.
Proof.
  intros Hnd Hperm.
  assert (NoDup ((λ path, (Path_Route path, ToLower (Path_HTTPMethod path)))
                 <$> paths')) as Hnd' by by rewrite -Hperm.
  apply pathsMap_eq.
  - rewrite !makeAllPathsMap_dom. apply set_eq; intros route.
    by rewrite !elem_of_list_to_set Hperm.
  - intros route method. rewrite !makeAllPathsMap_entry. f_equal.
    unfold lastRoute.
    set (P := λ path : Path, Path_Route path = route
                             ∧ ToLower (Path_HTTPMethod path) = method).
    assert (filter P paths ≡ₚ filter P paths') as Hf by by rewrite Hperm.
    pose proof (filter_at_most_one _ P (route, method) paths Hnd) as Hlen.
    destruct (filter P paths) as [|a [|b l]] eqn:Hfp.
    + apply Permutation_nil_l in Hf. by rewrite -Hf.
    + apply Permutation_singleton_l in Hf. by rewrite -Hf.
    + simpl in Hlen. assert (S (S (length l)) ≤ 1)%nat; [|lia].
      apply Hlen. by intros x [-> ->].
Qed.

(** X13: a route that is followed, anywhere later in the list, by a route
    of the same path and the same lowered method leaves no trace: the
    paths map is the one built without it. *)
Theorem makeAllPathsMap_shadowed (before between after : list Path)
    (shadowed path : Path) :
  Path_Route shadowed = Path_Route path →
  ToLower (Path_HTTPMethod shadowed) = ToLower (Path_HTTPMethod path) →
  makeAllPathsMap (before ++ shadowed :: between ++ path :: after)
    = makeAllPathsMap (before ++ between ++ path :: after).
Proof.
  intros Hroute Hmethod. apply pathsMap_eq.
  - rewrite !makeAllPathsMap_dom. apply set_eq; intros route.
    rewrite !elem_of_list_to_set !list_elem_of_fmap.
    split.
    + intros (p & -> & Hin).
      apply elem_of_app in Hin as [Hin|Hin]; [exists p; set_solver|].
      apply elem_of_cons in Hin as [->|Hin]; [|exists p; set_solver].
      exists path. split; [done|]. set_solver.
    + intros (p & -> & Hin). exists p. split; [done|]. set_solver.
  - intros route method. rewrite !makeAllPathsMap_entry. f_equal.
    unfold lastRoute.
    set (P := λ p : Path, Path_Route p = route
                          ∧ ToLower (Path_HTTPMethod p) = method).
    repeat (rewrite filter_app || rewrite filter_cons).
    destruct (decide (P shadowed)) as [[Hr Hm]|Hno]; [|done].
    rewrite decide_True; [|split; congruence].
    repeat (rewrite last_app || rewrite last_cons).
    by destruct (last (filter P after)).
Qed.

End MoreBuilders.

(** * Further properties of the emission driver *)

Section MoreDriver.
Context `{C : Collaborators}.

(** The logs [BuildDocs] can leave, with the state of the file system. *)
Lemma BuildDocs_shapes (o : OAS) (conf : list ConfigBuilder) (st : state) :
  let init := initCallStackForRoutes o in
  let yml := yaml_Marshal (transformToHybridOAS init.2) in
  let outPath := getPathFromFirstElement conf in
  ∃ (log : list call) (w : World),
    (BuildDocs o conf st).2 = {| world := w; calls := calls st ++ log |}
    ∧ ((∃ e, init.1 = Some e ∧ w = world st ∧ log = [CallInit (Some e)])
       ∨ (∃ e, init.1 = None ∧ yml.2 = Some e ∧ w = world st
               ∧ log = [CallInit None; CallMarshal (Some e)])
       ∨ (init.1 = None ∧ yml.2 = None
          ∧ ((∃ e, log = [CallInit None; CallMarshal None;
                          CallCreate outPath (inr e)])
             ∨ (∃ f e, log = [CallInit None; CallMarshal None;
                              CallCreate outPath (inl f);
                              CallWrite f yml.1 (Some e); CallClose f])
             ∨ (∃ f e, log = [CallInit None; CallMarshal None;
                              CallCreate outPath (inl f); CallWrite f yml.1 None;
                              CallFlush f (Some e); CallClose f])
             ∨ (∃ f, log = [CallInit None; CallMarshal None;
                            CallCreate outPath (inl f); CallWrite f yml.1 None;
                            CallFlush f None; CallClose f])))).
Proof.
  intros init yml outPath.
  pose proof (BuildDocs_unfold o conf st) as Hres. cbv zeta in Hres.
  fold init yml outPath in Hres. rewrite Hres. clear Hres.
  destruct (init.1) as [e|] eqn:Hinit.
  { exists [CallInit (Some e)], (world st). split; [done|]. left. by exists e. }
  destruct (yml.2) as [e|] eqn:Hyml.
  { exists [CallInit None; CallMarshal (Some e)], (world st). split; [done|].
    right; left. by exists e. }
  destruct (createYAMLOutFile_run outPath yml.1
              {| world := world st;
                 calls := calls st ++ [CallInit None; CallMarshal None] |})
    as (res & w & log & Hrun & _ & _ & _ & _ & Hshape).
  rewrite Hrun. cbn [snd calls].
  exists (CallInit None :: CallMarshal None :: log), w.
  split; [by rewrite -app_assoc|].
  right; right. split_and!; [done|done|].
  destruct res as [e|].
  - destruct Hshape as [(e0 & _ & ->)|[(f & e0 & _ & ->)|(f & e0 & _ & ->)]].
    + left. by exists e0.
    + right; left. by exists f, e0.
    + right; right; left. by exists f, e0.
  - destruct Hshape as (f & ->). right; right; right. by exists f.
Qed.

(** X11: when validation or serialisation fails, [BuildDocs] returns an
    error without having called the file system: the state of the file
    system is the one it started from and the log holds no [Create],
    [Write], [Flush] or [Close]; after a failed validation the encoder is
    not called either. *)
Theorem BuildDocs_early_failure (o : OAS) (conf : list ConfigBuilder) (st : state) :
  let init := initCallStackForRoutes o in
  let yml := yaml_Marshal (transformToHybridOAS init.2) in
  init.1 ≠ None ∨ yml.2 ≠ None →
  is_Some (BuildDocs o conf st).1
  ∧ world (BuildDocs o conf st).2 = world st
  ∧ ∃ log : list call,
      calls (BuildDocs o conf st).2 = calls st ++ log
      ∧ Forall (λ c, callee c = Init ∨ callee c = Marshal) log
      ∧ (init.1 ≠ None → log = [CallInit init.1]).
Proof.
  intros init yml Hfail.
  pose proof (BuildDocs_unfold o conf st) as Hres. cbv zeta in Hres.
  fold init yml in Hres. rewrite Hres. clear Hres.
  destruct (init.1) as [e|] eqn:Hinit.
  { split_and!; [by eexists|done|]. exists [CallInit (Some e)].
    split_and!; [done|by repeat constructor|done]. }
  destruct (yml.2) as [e|] eqn:Hyml; [|by destruct Hfail].
  split_and!; [by eexists|done|]. exists [CallInit None; CallMarshal (Some e)].
  split_and!; [done| |done].
  repeat constructor; by [left | right].
Qed.

(** X12: the calls of [BuildDocs] depend on each other as follows.
    Validation is the first call; the encoder is called only after a
    successful validation; a file is created only after both succeeded;
    what is written is the encoder's output, to the handle [Create]
    returned; [Flush] follows a successful [Write]; and [Close], on the
    created handle, is the last call. *)
Theorem BuildDocs_call_order (o : OAS) (conf : list ConfigBuilder) (st : state) :
  let init := initCallStackForRoutes o in
  let yml := yaml_Marshal (transformToHybridOAS init.2) in
  let outPath := getPathFromFirstElement conf in
  ∃ log : list call,
    calls (BuildDocs o conf st).2 = calls st ++ log
    ∧ head log = Some (CallInit init.1)
    ∧ (∀ r, CallMarshal r ∈ log → init.1 = None ∧ r = yml.2)
    ∧ (∀ p r, CallCreate p r ∈ log → init.1 = None ∧ yml.2 = None ∧ p = outPath)
    ∧ (∀ f d r, CallWrite f d r ∈ log →
         d = yml.1 ∧ CallCreate outPath (inl f) ∈ log)
    ∧ (∀ f r, CallFlush f r ∈ log → CallWrite f yml.1 None ∈ log)
    ∧ (∀ f, CallClose f ∈ log →
         CallCreate outPath (inl f) ∈ log ∧ last log = Some (CallClose f)).
Proof.
  intros init yml outPath.
  destruct (BuildDocs_shapes o conf st) as (log & w & Hrun & Hshape).
  fold init yml outPath in Hshape.
  exists log. split; [by rewrite Hrun|].
  destruct Hshape as [(e & Hi & _ & ->)|[(e & Hi & Hy & _ & ->)|(Hi & Hy & Hshape)]].
  - rewrite Hi. split_and!; [done|intros; set_solver..].
  - rewrite Hi Hy. split_and!; [done|intros; set_solver..].
  - rewrite Hi Hy.
    destruct Hshape as [(e & ->)|[(f & e & ->)|[(f & e & ->)|(f & ->)]]].
    + split_and!; [done|intros; set_solver..].
    + split_and!; [done|intros; set_solver..].
    + split_and!; [done|intros; set_solver..].
    + split_and!; [done|intros; set_solver..].
Qed.

End MoreDriver.

(** * Further properties of the transform over a store *)

Section MoreStore.
Context {D : Decls}.

#[local] Existing Instances Mem_ret Mem_bind.

(** A loop invariant for [range] over an array that the body leaves as it
    is: [Inv i] holds when iteration [i] starts. *)
Lemma rangeFrom_inv {A : Type} (Inv : nat → heap → Prop) (elems : heap → list A)
    (body : A → Mem unit) (xs : list A) :
  (∀ i h, Inv i h → elems h = xs) →
  (∀ i x h, xs !! i = Some x → Inv i h → Inv (S i) (body x h).2) →
  ∀ n i h, i + n = length xs → Inv i h →
    Inv (length xs) (rangeFrom elems body i n h).2.
Proof.
  intros Helems Hstep. induction n as [|n IH]; intros i h Hlen Hinv.
  - simpl. by replace (length xs) with i by lia.
  - cbn [rangeFrom]. rewrite (Helems i h Hinv).
    destruct (xs !! i) as [x|] eqn:Hx.
    + unfold mbind, Mem_bind.
      pose proof (Hstep i x h Hx Hinv) as Hnext.
      destruct (body x h) as [[] h1]. apply IH; [lia|done].
    + apply lookup_ge_None in Hx. lia.
Qed.

Lemma range_inv {A : Type} (Inv : nat → heap → Prop) (elems : heap → list A)
    (body : A → Mem unit) (xs : list A) (h : heap) :
  (∀ i h, Inv i h → elems h = xs) →
  (∀ i x h, xs !! i = Some x → Inv i h → Inv (S i) (body x h).2) →
  Inv 0 h → Inv (length xs) (range elems body h).2.
Proof.
  intros Helems Hstep Hinv. unfold range. rewrite (Helems 0 h Hinv).
  by apply (rangeFrom_inv Inv elems body xs Helems Hstep).
Qed.

Lemma securityMapsBuilt_step (h : heap) (sm : loc) (xs : list SecurityEntityH)
    (i : nat) (sec : SecurityEntityH) (h' : heap) :
  cells h !! sm = None →
  xs !! i = Some sec →
  securityMapsBuilt h sm xs i h' →
  securityMapsBuilt h sm xs (S i)
    ((securityMap ← makeMap;
      mapStore securityMap (SecurityEntityH_AuthName sec)
               (HStrings (SecurityEntityH_PermTypes sec));;
      appendSecurityMap sm securityMap) h').2.
Proof.
  intros Hsm Hsec (Hold & ms & Hcell & Hnd & Hms).
  set (l := fresh (dom (cells h'))).
  assert (cells h' !! l = None) as Hl by apply not_elem_of_dom, is_fresh.
  assert (l ≠ sm) as Hlsm by (intros ->; congruence).
  assert (cells h !! l = None) as Hl0.
  { destruct (cells h !! l) as [c|] eqn:Hc; [|done]. apply Hold in Hc. congruence. }
  assert (l ∉ ms) as Hlms.
  { intros Hin. apply list_elem_of_lookup_1 in Hin as [j Hj].
    destruct (Forall2_lookup_l _ _ _ _ _ Hms Hj) as (sec' & _ & _ & _ & Hc).
    congruence. }
  unfold makeMap, alloc, mapStore, appendSecurityMap, mbind, mret, Mem_bind, Mem_ret.
  fold l. cbn [fst snd setCell cells receiver].
  rewrite lookup_insert_eq. cbn [fst snd setCell cells receiver].
  rewrite lookup_insert_ne; [|done]. rewrite lookup_insert_ne; [|done].
  rewrite Hcell. cbn [fst snd setCell cells receiver].
  split.
  - intros l0 c Hc.
    assert (l0 ≠ sm) by (intros ->; congruence).
    assert (l0 ≠ l) by (intros ->; congruence).
    rewrite !lookup_insert_ne; [by apply Hold|done..].
  - exists (ms ++ [l]). split_and!.
    + by rewrite lookup_insert_eq.
    + apply NoDup_app. split_and!; [done| |apply NoDup_singleton].
      intros m Hm ->%list_elem_of_singleton. done.
    + rewrite (take_S_r _ _ _ Hsec). apply Forall2_app.
      * eapply Forall2_impl; [done|]. intros m sec' (Hne & Hm0 & Hm).
        assert (m ≠ l) by (intros ->; congruence).
        split_and!; [done|done|]. by rewrite !lookup_insert_ne.
      * apply Forall2_cons. split; [|constructor]. split_and!; [done|done|].
        rewrite lookup_insert_ne; [|done]. by rewrite lookup_insert_eq.
Qed.

Lemma makeSecurityMapH_unfold (se : loc) (h : heap) :
  makeSecurityMapH se h =
    (fresh (dom (cells h)),
     (range (securityEntitiesAt se) (λ sec,
        securityMap ← makeMap;
        mapStore securityMap (SecurityEntityH_AuthName sec)
                 (HStrings (SecurityEntityH_PermTypes sec));;
        appendSecurityMap (fresh (dom (cells h))) securityMap)
      (setCell (fresh (dom (cells h))) (CSecurityMaps []) h)).2).
Proof.
  unfold makeSecurityMapH, makeSecurityMaps, alloc.
  unfold mbind at 1 2, Mem_bind at 1 2, mret, Mem_ret.
  by destruct (range _ _ _) as [[] h2].
Qed.

(** X14: over a store, [makeSecurityMap] returns a new array that lists,
    in the order of the requirements, one new map per requirement, all
    different; each map has the single entry [AuthName ↦ PermTypes], and its
    value is the requirement's own slice: the same backing array as in the
    input, not a copy. The cells of the store it started from are as they
    were. *)
Theorem makeSecurityMapH_in_order (se : loc) (xs : list SecurityEntityH) (h : heap) :
  cells h !! se = Some (CSecurityEntities xs) →
  let sm := (makeSecurityMapH se h).1 in
  let h' := (makeSecurityMapH se h).2 in
  cells h !! sm = None
  ∧ (∀ l c, cells h !! l = Some c → cells h' !! l = Some c)
  ∧ ∃ ms : list loc,
      cells h' !! sm = Some (CSecurityMaps ms)
      ∧ NoDup ms
      ∧ Forall2 (λ m sec,
                   m ≠ sm ∧ cells h !! m = None
                   ∧ cells h' !! m
                     = Some (CMap (<[SecurityEntityH_AuthName sec :=
                                       HStrings (SecurityEntityH_PermTypes sec)]> ∅)))
                ms xs.
Proof.
  intros Hse sm h'. subst sm h'.
  rewrite makeSecurityMapH_unfold. cbn [fst snd].
  set (sm := fresh (dom (cells h))).
  assert (cells h !! sm = None) as Hsm by apply not_elem_of_dom, is_fresh.
  set (h1 := setCell sm (CSecurityMaps []) h).
  assert (securityMapsBuilt h sm xs 0 h1) as Hinit.
  { split.
    - intros l c Hc. simpl. rewrite lookup_insert_ne; [done|].
      intros ->. congruence.
    - exists []. simpl. rewrite lookup_insert_eq take_0.
      split_and!; [done|apply NoDup_nil_2|constructor]. }
  pose proof (range_inv (securityMapsBuilt h sm xs) (securityEntitiesAt se) _ xs h1
    (λ i h' Hb, ltac:(unfold securityEntitiesAt; by rewrite (proj1 Hb _ _ Hse)))
    (λ i sec h' Hi Hb, securityMapsBuilt_step h sm xs i sec h' Hsm Hi Hb)
    Hinit) as (Hold & ms & Hcell & Hnd & Hms).
  rewrite firstn_all in Hms.
  split_and!; [done|done|]. by exists ms.
Qed.

Lemma transformToHybridOASH_unfold (h : heap) :
  let p := makeAllPathsMapH (OASH_Paths (receiver h)) h in
  let c := makeComponentsMapH (OASH_Components (receiver p.2)) p.2 in
  (transformToHybridOASH h).2 = c.2
  ∧ PathsH (transformToHybridOASH h).1 = p.1
  ∧ ComponentsH (transformToHybridOASH h).1 = c.1.
Proof.
  cbv beta iota zeta delta [transformToHybridOASH mbind Mem_bind readReceiver
                            mret Mem_ret].
  destruct (makeAllPathsMapH _ h) as [paths h1]. cbn [fst snd].
  by destruct (makeComponentsMapH _ h1) as [components h2].
Qed.

(** The maps of a tree that was complete in [h1] are still the maps
    allocated between [h0] and [h1], whatever was built after [h1]. *)
Lemma inTree_earlier (h0 h1 h2 : heap) (root m : loc) :
  untouched h0 h1 → untouched h1 h2 → isNew h0 h1 root →
  inTree h2 root m → isNew h0 h1 m.
Proof.
  intros H01 H12 Hroot. induction 1 as [|m m' _ IH Hchild]; [done|].
  destruct IH as [Hm0 [c Hc]].
  pose proof (untouched_new _ _ H01 m c Hm0 Hc) as Hnew.
  pose proof (untouched_cells _ _ H12 m c Hc) as Hc2.
  assert (∀ v, Forall (isNew h0 h1) (refsOf v) → m' ∈ mapsOf h2 v → isNew h0 h1 m')
    as Hval.
  { intros v Hv Hin. destruct v; simpl in *; try by apply elem_of_nil in Hin.
    - rewrite Forall_singleton in Hv. destruct Hv as [Ha0 [c' Hc']].
      rewrite (untouched_cells _ _ H12 a c' Hc') in Hin.
      pose proof (untouched_new _ _ H01 a c' Ha0 Hc') as Hnew'.
      destruct c'; try by apply elem_of_nil in Hin.
      simpl in Hnew'. by apply (proj1 (Forall_forall _ _) Hnew').
    - apply list_elem_of_singleton in Hin as ->. by rewrite Forall_singleton in Hv.
    - apply list_elem_of_singleton in Hin as ->. by rewrite Forall_singleton in Hv. }
  unfold mapChild in Hchild. rewrite Hc2 in Hchild.
  destruct c as [kv|kv| | | | | | | | |]; try done.
  - destruct Hchild as (k & v & Hkv & Hin). apply (Hval v); [|done].
    by apply (Hnew k v).
  - destruct Hchild as (k & v & Hkv & Hin). apply (Hval v); [|done].
    by apply (Hnew k v).
Qed.

(** X15: the two trees the transform returns share no map: a map of the
    paths tree (the paths map itself, a method map, a per-method map or
    anything below) is not a map of the components tree. *)
Theorem transformToHybridOASH_trees_disjoint (h : heap) (m : loc) :
  inTree (transformToHybridOASH h).2 (PathsH (transformToHybridOASH h).1) m →
  ¬ inTree (transformToHybridOASH h).2 (ComponentsH (transformToHybridOASH h).1) m.
Proof.
  destruct (transformToHybridOASH_unfold h) as (-> & -> & ->).
  set (p := makeAllPathsMapH (OASH_Paths (receiver h)) h).
  set (c := makeComponentsMapH (OASH_Components (receiver p.2)) p.2).
  destruct (kf_makeAllPathsMapH h [] (OASH_Paths (receiver h)) h
              (untouched_refl h) (Forall_nil_2 _)) as (H01 & _ & Hp).
  fold p in H01, Hp. rewrite Forall_singleton in Hp.
  destruct (kf_makeComponentsMapH p.2 [] (OASH_Components (receiver p.2)) p.2
              (untouched_refl p.2) (Forall_nil_2 _)) as (H12 & _ & Hc).
  fold c in H12, Hc. rewrite Forall_singleton in Hc.
  intros Hpaths Hcomponents.
  destruct (inTree_earlier h p.2 c.2 p.1 m H01 H12 Hp Hpaths) as [_ [? Hsome]].
  destruct (inTree_isNew p.2 c.2 c.1 m H12 Hc Hcomponents) as [Hnone _].
  congruence.
Qed.

End MoreStore.

(** * The builders on the example inputs *)

#[local] Existing Instance plainDecls.

Lemma makeAllPathsMap_groups_methods_witness :
  let get := exampleRoute "/users" "get" "third" in
  let post := exampleRoute "/users" "POST" "second" in
  size (makeAllPathsMap usersRoutes) = 1
  ∧ ∃ methods : gmap string value,
      makeAllPathsMap usersRoutes !! "/users" = Some methods
      ∧ methods !! "get" = Some (VMap (pathMap get))
      ∧ methods !! "post" = Some (VMap (pathMap post)).
Proof.
  intros get post.
  destruct (makeAllPathsMap_groups_methods usersRoutes get post)
    as (_ & Hsize & methods & Hm & Hget & Hpost & _);
    [reflexivity | reflexivity | reflexivity |].
  split; [exact Hsize|]. exists methods. split_and!; assumption.
Defined.

(** C2, as stated, fails: [GET] and [POST] of ["/users"] differ in method
    and [GET] is the only route spelled that way, yet the map built for it
    is under no method key, because the later [get] route took its key. *)
Lemma makeAllPathsMap_lowered_method_collides :
  let first := exampleRoute "/users" "GET" "first" in
  let second := exampleRoute "/users" "POST" "second" in
  first ∈ usersRoutes ∧ second ∈ usersRoutes
  ∧ Path_Route first = Path_Route second
  ∧ Path_HTTPMethod first ≠ Path_HTTPMethod second
  ∧ ¬ ∃ (methods : gmap string value) (key : string),
        makeAllPathsMap usersRoutes !! Path_Route first = Some methods
        ∧ methods !! key = Some (VMap (pathMap first)).
Proof.
  intros first second. split_and!.
  - apply list_elem_of_here.
  - apply list_elem_of_further, list_elem_of_here.
  - reflexivity.
  - discriminate.
  - intros (methods & key & Hm & Hk).
    assert (methodEntry (makeAllPathsMap usersRoutes) "/users" key
            = Some (VMap (pathMap first))) as He
      by (apply methodEntry_Some; by exists methods).
    rewrite makeAllPathsMap_entry in He.
    apply fmap_Some in He as (r & Hlast & Hr).
    apply VMap_inj in Hr.
    apply (f_equal (λ m : gmap string value, m !! keySummary)) in Hr.
    destruct (pathMap_carriesRoute r) as (? & [= <-] & _ & Hs & _).
    destruct (pathMap_carriesRoute first) as (? & [= <-] & _ & Hs' & _).
    rewrite Hs Hs' in Hr. injection Hr as Hsummary.
    pose proof (lastRoute_Some _ _ _ _ Hlast) as (Hin & _ & Hkey).
    assert (r = first) as ->.
    { unfold usersRoutes in Hin.
      repeat (apply elem_of_cons in Hin as [->|Hin]; [done || discriminate|]).
      by apply elem_of_nil in Hin. }
    subst key. discriminate Hlast.
Qed.

Lemma makeAllPathsMap_method_key_lowercase_witness :
  let path := exampleRoute "/users" "GET" "first" in
  (∃ (methods : gmap string value) (v : value),
     makeAllPathsMap [path] !! "/users" = Some methods
     ∧ methods !! "get" = Some v)
  ∧ ToLower "GET" = "get"
  ∧ hasUpper (ToLower "GET") = false.
Proof.
  intros path.
  destruct (makeAllPathsMap_method_key_lowercase [path] path)
    as ((methods & v & Hm & Hv) & _ & Hascii); [apply list_elem_of_here|].
  destruct (Hascii eq_refl) as [Hlower Hupper].
  split; [|split; [exact Hlower | exact Hupper]].
  exists methods, v. split; assumption.
Defined.

(** The scenario of the spec: [{"/users": {"get": {..., "responses": {200:
    {"description": "ok", "content": {"application/json": {"schema":
    {"$ref": "#/components/schemas/User"}}}}}}}}]. *)
Lemma usersGet_scenario :
  methodEntry (makeAllPathsMap [usersGet]) "/users" "get"
    = Some (VMap (pathMap usersGet))
  ∧ pathMap usersGet !! "responses"
    = Some (VCodeMap (makeResponsesMap (Path_Responses usersGet)))
  ∧ makeResponsesMap (Path_Responses usersGet) !! 200%N
    = Some (VMap (<["content" := VMap (<["application/json" :=
              VSchemaRef (<["schema" :=
                <["$ref" := "#/components/schemas/User"]> ∅]> ∅)]> ∅)]>
            (<["description" := VString "ok"]> ∅))).
Proof. split_and!; reflexivity. Qed.

(** * The emission driver on the example inputs *)

#[local] Existing Instance plainCollaborators.

(** A first element with an empty custom path is used as it is: the file
    system is asked to create [""] and its refusal comes back wrapped. *)
Lemma BuildDocs_empty_custom_path :
  let st := {| world := ∅; calls := [] |} in
  BuildDocs emptyOAS [ {| customPath := "" |}; {| customPath := "out.yaml" |} ] st
  = (Some (Errorf "an issue occurred while saving to YAML output"
             (Errorf "failed creating yaml output file"
                (External "open : no such file or directory"))),
     {| world := ∅;
        calls := [CallInit None; CallMarshal None;
                  CallCreate "" (inr "open : no such file or directory")] |}).
Proof. reflexivity. Qed.

Lemma BuildDocs_default_path :
  let st := {| world := ∅; calls := [] |} in
  BuildDocs emptyOAS [] st
  = (None,
     {| world := <["./internal/dist/openapi.yaml" := []]> ∅;
        calls := [CallInit None; CallMarshal None;
                  CallCreate "./internal/dist/openapi.yaml"
                    (inl "./internal/dist/openapi.yaml");
                  CallWrite "./internal/dist/openapi.yaml" [] None;
                  CallFlush "./internal/dist/openapi.yaml" None;
                  CallClose "./internal/dist/openapi.yaml"] |}).
Proof. reflexivity. Qed.

(** * The transform over the example store *)

(** The tree built for [GET /users]: the maps are the cells 8 to 19, all
    allocated by the run; the ["tags"] entry is the slice of the input, with
    the backing array in cell 2 of the input store. *)
Lemma exampleStore_run :
  let ho := (transformToHybridOASH exampleStore).1 in
  let h' := (transformToHybridOASH exampleStore).2 in
  PathsH ho = 8%positive ∧ ComponentsH ho = 19%positive
  ∧ storeEntry h' 8 "/users" = Some (HMap 9)
  ∧ storeEntry h' 9 "get" = Some (HMap 10)
  ∧ storeEntry h' 10 "tags" = Some (HStrings 2)
  ∧ storeEntry h' 10 "summary" = Some (HString "list users")
  ∧ storeEntry h' 10 "operationId" = Some (HString "listUsers")
  ∧ storeEntry h' 10 "security" = Some (HSecurity 11)
  ∧ storeEntry h' 10 "requestBody" = Some (HMap 12)
  ∧ storeEntry h' 10 "responses" = Some (HCodeMap 14)
  ∧ cells h' !! 11%positive = Some (CSecurityMaps [])
  ∧ storeEntry h' 12 "description" = Some (HString "")
  ∧ storeEntry h' 12 "content" = Some (HMap 13)
  ∧ cells h' !! 13%positive = Some (CMap ∅)
  ∧ codeEntry h' 14 200 = Some (HMap 15)
  ∧ storeEntry h' 15 "description" = Some (HString "ok")
  ∧ storeEntry h' 15 "content" = Some (HMap 16)
  ∧ storeEntry h' 16 "application/json" = Some (HMap 18)
  ∧ storeEntry h' 18 "schema" = Some (HMap 17)
  ∧ storeEntry h' 17 "$ref" = Some (HString "#/components/schemas/User")
  ∧ cells h' !! 19%positive = Some (CMap ∅)
  ∧ cells h' !! 2%positive = Some (CStrings ["users"])
  ∧ cells exampleStore !! 2%positive = Some (CStrings ["users"]).
Proof. intros ho h'. subst ho h'. split_and!; reflexivity. Qed.

Lemma transformToHybridOAS_empty_witness :
  let ho := (transformToHybridOASH emptyStore).1 in
  let h' := (transformToHybridOASH emptyStore).2 in
  hybridOAS_fields (transformToHybridOAS emptyOAS)
    = [ ("openapi", FOpenAPI "3.0.1"); ("info", FInfo ""); ("externalDocs", FExternalDocs "");
        ("servers", FServers []); ("tags", FTags []);
        ("paths", FPaths ∅); ("components", FComponents ∅) ]
  ∧ cells h' !! PathsH ho = Some (CMap ∅)
  ∧ cells h' !! ComponentsH ho = Some (CMap ∅)
  ∧ PathsH ho ≠ ComponentsH ho.
Proof.
  intros ho h'.
  destruct (transformToHybridOAS_empty (D:=plainDecls) "3.0.1" "" "" [] [] emptyStore)
    as (Hfields & _ & Hp & Hc & Hne); [reflexivity | reflexivity |].
  split_and!; assumption.
Defined.

(** * Further properties on the example inputs *)

Lemma makeAllPathsMap_method_keys_witness :
  let methods : gmap string value :=
    <["post" := VMap (pathMap (exampleRoute "/users" "POST" "second"))]>
    (<["get" := VMap (pathMap (exampleRoute "/users" "get" "third"))]> ∅) in
  makeAllPathsMap usersRoutes !! "/users" = Some methods
  ∧ dom methods = {["get"; "post"]}
  ∧ methods ≠ ∅.
Proof.
  intros methods.
  destruct (makeAllPathsMap_method_keys usersRoutes "/users" methods)
    as (Hdom & Hne & _); [reflexivity|].
  split; [reflexivity|]. split; [|exact Hne].
  rewrite Hdom. apply set_eq. intros k. set_solver.
Defined.

Lemma makeAllPathsMap_Permutation_witness :
  makeAllPathsMap [exampleRoute "/users" "GET" "first";
                   exampleRoute "/users" "POST" "second"]
  = makeAllPathsMap [exampleRoute "/users" "POST" "second";
                     exampleRoute "/users" "GET" "first"].
Proof.
  apply makeAllPathsMap_Permutation.
  - apply NoDup_cons_2; [|apply NoDup_singleton].
    intros Hin%list_elem_of_singleton. discriminate Hin.
  - apply perm_swap.
Defined.

Lemma makeAllPathsMap_shadowed_witness :
  makeAllPathsMap usersRoutes
  = makeAllPathsMap [exampleRoute "/users" "POST" "second";
                     exampleRoute "/users" "get" "third"].
Proof.
  apply (makeAllPathsMap_shadowed []
           [exampleRoute "/users" "POST" "second"] []
           (exampleRoute "/users" "GET" "first")
           (exampleRoute "/users" "get" "third")); reflexivity.
Defined.

Lemma BuildDocs_early_failure_witness :
  let st := {| world := ∅; calls := [] |} in
  is_Some (BuildDocs (C:=refusingCollaborators) emptyOAS [] st).1
  ∧ world (BuildDocs (C:=refusingCollaborators) emptyOAS [] st).2 = ∅.
Proof.
  intros st.
  destruct (BuildDocs_early_failure (C:=refusingCollaborators) emptyOAS [] st)
    as (Herr & Hworld & _); [left; discriminate|].
  split; [exact Herr | exact Hworld].
Defined.

Lemma makeSecurityMapH_in_order_witness :
  let sm := (makeSecurityMapH 1 securityStore).1 in
  let h' := (makeSecurityMapH 1 securityStore).2 in
  ∃ m : loc,
    cells h' !! sm = Some (CSecurityMaps [m])
    ∧ cells securityStore !! m = None
    ∧ cells h' !! m = Some (CMap (<["petstore_auth" := HStrings 2]> ∅))
    ∧ cells h' !! 2%positive = Some (CStrings ["write:pets"; "read:pets"]).
Proof.
  intros sm h'.
  destruct (makeSecurityMapH_in_order 1
              [ {| SecurityEntityH_AuthName := "petstore_auth";
                   SecurityEntityH_PermTypes := 2%positive |} ] securityStore)
    as (_ & Hold & ms & Hcell & _ & Hms); [reflexivity|].
  fold sm h' in Hold, Hcell, Hms.
  destruct ms as [|m [|m' ms]];
    [apply Forall2_nil_cons_inv in Hms; destruct Hms
    | |apply Forall2_cons in Hms as [_ Hms];
       apply Forall2_cons_nil_inv in Hms; destruct Hms].
  apply Forall2_cons in Hms as [(_ & Hnew & Hm) _].
  exists m. split; [exact Hcell|]. split; [exact Hnew|]. split; [exact Hm|].
  apply Hold. reflexivity.
Defined.

Lemma transformToHybridOASH_trees_disjoint_witness :
  ¬ inTree (transformToHybridOASH exampleStore).2
           (ComponentsH (transformToHybridOASH exampleStore).1) 8%positive.
Proof.
  apply (transformToHybridOASH_trees_disjoint exampleStore 8%positive).
  apply inTree_root.
Defined.

(** * The emission driver over a file system that tracks open handles *)

Section TrackedFiles.
#[local] Existing Instance trackingCollaborators.

(** A write that fails: the error comes back wrapped twice under the
    output stage's messages, the created file is left empty, and the list
    of open handles is empty again because the handle was closed. *)
Lemma BuildDocs_stages_witness :
  let st := @Build_state plainDecls trackingCollaborators (∅, []) [] in
  BuildDocs (C:=trackingCollaborators) emptyOAS [ {| customPath := "/dev/full" |} ] st
  = (Some (Errorf "an issue occurred while saving to YAML output"
             (Errorf "writing issue occurred"
                (Errorf "failed writing to YAML output file"
                   (External "no space left on device")))),
     @Build_state plainDecls trackingCollaborators
       (<["/dev/full" := []]> ∅, [])
       [CallInit None; CallMarshal None;
        CallCreate "/dev/full" (inl "/dev/full");
        CallWrite "/dev/full" [x7b; x7d] (Some "no space left on device");
        CallClose "/dev/full"]).
Proof.
  intros st.
  destruct (BuildDocs_stages (C:=trackingCollaborators) emptyOAS
              [ {| customPath := "/dev/full" |} ] st)
    as (_ & _ & _ & _ & Hwrite & _).
  exact (Hwrite "/dev/full" "no space left on device"
           eq_refl eq_refl eq_refl eq_refl).
Defined.

End TrackedFiles.

(** * What the output shares with the input *)

